(** * UUID.js: a shallow embedding of src/uuid.js and its properties

    The JavaScript library is embedded function by function.  Numbers
    that the library manipulates are integer-valued doubles below 2^53;
    they are modelled by [Z] (with the NaN sentinel beside them), the
    32-bit operators are written with their wrap-around, strings are
    lists of characters, the pseudo-random source is an explicit
    sequence of draws and the version 1 generator threads its persistent
    state. *)

From Stdlib Require Import ZArith QArith Qround List Ascii String Bool Lia.
Import ListNotations.
Open Scope Z_scope.

(** ** ECMAScript primitives used by the library *)

Module JS.

(** A Number as the library sees it: an integer-valued double, or NaN. *)
Inductive number : Type :=
| Num (z : Z)
| NaN.

(** Strings are sequences of characters. *)
Definition jsstring := list ascii.

Definition str (s : string) : jsstring := list_ascii_of_string s.

(** ToInt32 on an integer: wrap into [-2^31, 2^31). *)
Definition to_int32 (z : Z) : Z := (z + 2^31) mod 2^32 - 2^31.

(** ToUint32 on an integer: wrap into [0, 2^32). *)
Definition to_uint32 (z : Z) : Z := z mod 2^32.

(** Truncation toward zero of a rational, the first step of ToInt32 on a
    fractional double. *)
Definition Qtrunc (q : Q) : Z := Z.quot (Qnum q) (Zpos (Qden q)).

Definition ToInt32 (n : number) : Z :=
  match n with
  | Num z => to_int32 z
  | NaN => 0
  end.

Definition ToUint32 (n : number) : Z :=
  match n with
  | Num z => to_uint32 z
  | NaN => 0
  end.

(** The 32-bit operators [a << b], [a >> b], [a >>> b], [a & b] and
    [a | b]: operands go through ToInt32 (ToUint32 for [>>>] and for
    shift counts, of which five bits are kept). *)
Definition shl (a b : number) : Z :=
  to_int32 (Z.shiftl (ToInt32 a) (ToUint32 b mod 32)).
Definition sar (a b : number) : Z :=
  Z.shiftr (ToInt32 a) (ToUint32 b mod 32).
Definition shr (a b : number) : Z :=
  Z.shiftr (ToUint32 a) (ToUint32 b mod 32).
Definition band (a b : number) : Z :=
  to_int32 (Z.land (ToInt32 a) (ToInt32 b)).
Definition bor (a b : number) : Z :=
  to_int32 (Z.lor (ToInt32 a) (ToInt32 b)).

(** Arithmetic and comparison of Numbers; NaN is contagious and
    compares false with everything. *)
Definition nadd (a b : number) : number :=
  match a, b with
  | Num x, Num y => Num (x + y)
  | _, _ => NaN
  end.

Definition nsub (a b : number) : number :=
  match a, b with
  | Num x, Num y => Num (x - y)
  | _, _ => NaN
  end.

Definition nmul (a b : number) : number :=
  match a, b with
  | Num x, Num y => Num (x * y)
  | _, _ => NaN
  end.

(** [a % b] on integers: the remainder takes the sign of the dividend. *)
Definition nrem (a b : Z) : Z := Z.rem a b.

Definition nlt (a b : number) : bool :=
  match a, b with
  | Num x, Num y => x <? y
  | _, _ => false
  end.

(** [a == b] and [a === b] agree on Numbers. *)
Definition strict_eq (a b : number) : bool :=
  match a, b with
  | Num x, Num y => x =? y
  | _, _ => false
  end.

(** [a || 0] where [a] may be undefined (an absent argument). *)
Definition or_zero (a : option number) : number :=
  match a with
  | Some (Num z) => if z =? 0 then Num 0 else Num z
  | Some NaN => Num 0
  | None => Num 0
  end.

(** The pseudo-random source: the sequence of values that successive
    calls of Math.random() return. *)
Definition Source := nat -> Q.

(** Every draw of Math.random() lies in [0, 1). *)
Definition fair (s : Source) : Prop := forall n, (0 <= s n)%Q /\ (s n < 1)%Q.

(** Computations that consume random draws. *)
Definition Rand (A : Type) : Type := Source -> A * Source.

Definition ret {A} (a : A) : Rand A := fun s => (a, s).

Definition bind {A B} (m : Rand A) (k : A -> Rand B) : Rand B :=
  fun s => let p := m s in k (fst p) (snd p).

Definition Math_random : Rand Q := fun s => (s 0%nat, fun n => s (S n)).


(** *** Number.prototype.toString(radix) on integers *)

Definition digit_char (d : Z) : ascii :=
  nth (Z.to_nat d) (str "0123456789abcdefghijklmnopqrstuvwxyz") "0"%char.

(** The digits of [n] in the given radix, most significant first;
    [fuel] bounds their number. *)
Fixpoint digits_of (fuel : nat) (radix n : Z) (acc : list Z) : list Z :=
  match fuel with
  | O => acc
  | S f =>
      if n <? radix then n :: acc
      else digits_of f radix (n / radix) (n mod radix :: acc)
  end.

Definition digits_fuel (n : Z) : nat := S (Z.to_nat (Z.log2 n)).

Definition to_digits (radix n : Z) : jsstring :=
  map digit_char (digits_of (digits_fuel n) radix n []).

(** The embedding is exact for radix 2 and 16, and for radix 10 below
    10^21, where ECMAScript switches to exponent notation. *)
Definition Number_toString (n : number) (radix : Z) : jsstring :=
  match n with
  | NaN => str "NaN"
  | Num z =>
      if z <? 0 then "-"%char :: to_digits radix (- z)
      else to_digits radix z
  end.

(** *** parseInt(string, radix) *)

Definition code (c : ascii) : Z := Z.of_N (N_of_ascii c).

Definition is_white (c : ascii) : bool :=
  let n := code c in
  ((9 <=? n) && (n <=? 13)) || (n =? 32) || (n =? 160).

Fixpoint trim_left (s : jsstring) : jsstring :=
  match s with
  | c :: t => if is_white c then trim_left t else s
  | [] => []
  end.

Definition digit_val (c : ascii) : option Z :=
  let n := code c in
  if (48 <=? n) && (n <=? 57) then Some (n - 48)
  else if (97 <=? n) && (n <=? 122) then Some (n - 87)
  else if (65 <=? n) && (n <=? 90) then Some (n - 55)
  else None.

(** Value of the longest prefix of radix-R digits; [None] when it is
    empty. *)
Fixpoint parse_digits (R : Z) (s : jsstring) (acc : option Z) : option Z :=
  match s with
  | [] => acc
  | c :: t =>
      match digit_val c with
      | Some d =>
          if d <? R then
            parse_digits R t
              (Some (match acc with Some a => a * R + d | None => d end))
          else acc
      | None => acc
      end
  end.

Definition strip_sign (s : jsstring) : Z * jsstring :=
  match s with
  | c :: t =>
      if Ascii.eqb c "-" then (-1, t)
      else if Ascii.eqb c "+" then (1, t)
      else (1, s)
  | [] => (1, [])
  end.

Definition strip_0x (s : jsstring) : option jsstring :=
  match s with
  | c0 :: c1 :: t =>
      if Ascii.eqb c0 "0" && (Ascii.eqb c1 "x" || Ascii.eqb c1 "X")
      then Some t else None
  | _ => None
  end.

(** [radix] is [None] when the argument is omitted. *)
Definition parseInt (input : jsstring) (radix : option Z) : number :=
  let (sign, s) := strip_sign (trim_left input) in
  let R := match radix with Some r => to_int32 r | None => 0 end in
  if (R =? 0) || ((2 <=? R) && (R <=? 36)) then
    let strip := (R =? 0) || (R =? 16) in
    let R1 := if R =? 0 then 10 else R in
    let (R2, s2) :=
      match (if strip then strip_0x s else None) with
      | Some t => (16, t)
      | None => (R1, s)
      end in
    match parse_digits R2 s2 None with
    | Some v => Num (sign * v)
    | None => NaN
    end
  else NaN.

(** ToString applied to a Number, as parseInt does to its argument. *)
Definition ToString (n : number) : jsstring := Number_toString n 10.

(** String.prototype.toLowerCase on the characters of this model. *)
Definition to_lower (c : ascii) : ascii :=
  let n := code c in
  if (65 <=? n) && (n <=? 90) then ascii_of_N (Z.to_N (n + 32)) else c.

Definition toLowerCase (s : jsstring) : jsstring := map to_lower s.

(** *** Date.UTC(year, month, date), after MakeDay and MakeDate *)

Definition DayFromYear (y : Z) : Z :=
  365 * (y - 1970) + (y - 1969) / 4 - (y - 1901) / 100 + (y - 1601) / 400.

Definition InLeapYear (y : Z) : bool :=
  ((y mod 4 =? 0) && negb (y mod 100 =? 0)) || (y mod 400 =? 0).

Definition month_days (leap : bool) : list Z :=
  [31; if leap then 29 else 28; 31; 30; 31; 30; 31; 31; 30; 31; 30; 31].

Definition Date_UTC (year month date : Z) : Z :=
  let y := if (0 <=? year) && (year <=? 99) then 1900 + year else year in
  let ym := y + month / 12 in
  let mn := month mod 12 in
  let before := fold_right Z.add 0 (firstn (Z.to_nat mn) (month_days (InLeapYear ym))) in
  (DayFromYear ym + before + date - 1) * 86400000.

(** *** Rounding of a double product

    [round53 m] is the integer nearest to [m] that has at most 53
    significant bits, ties going to the even significand: the binary64
    rounding of an exact result [m * 2^e] away from overflow and from
    subnormals. *)
Definition round53 (m : Z) : Z :=
  let a := Z.abs m in
  let k := Z.log2 a - 52 in
  if k <=? 0 then m
  else
    let q := a / 2 ^ k in
    let r := a mod 2 ^ k in
    let h := 2 ^ (k - 1) in
    let q' := if r <? h then q
              else if h <? r then q + 1
              else if Z.even q then q else q + 1 in
    Z.sgn m * (q' * 2 ^ k).

End JS.

Import JS.

Notation "x <- m ;; k" := (bind m (fun x => k))
  (at level 61, m at next level, right associativity).

(** ** Core component *)

(** [UUID._getRandomInt]: an unsigned x-bit random integer.  The
    product of a draw and a power of two is exact; [0 | v] truncates. *)
Definition _getRandomInt (x : Z) : Rand number :=
  if x <? 0 then ret NaN
  else if x <=? 30 then
    r <- Math_random ;;
    ret (Num (bor (Num 0) (Num (Qtrunc (r * inject_Z (shl (Num 1) (Num x)))))))
  else if x <=? 53 then
    r1 <- Math_random ;;
    r2 <- Math_random ;;
    ret (Num (bor (Num 0) (Num (Qtrunc (r1 * inject_Z (shl (Num 1) (Num 30)))))
              + bor (Num 0) (Num (Qtrunc (r2 * inject_Z (shl (Num 1) (Num (x - 30))))))
                * shl (Num 1) (Num 30)))
  else ret NaN.

(** The padding loop of the aligner, entered with [i > 0]: at each turn
    [z] is put before [hex] when [i] is odd, then [i] is halved and [z]
    doubled.  The counter is at most 48 at every call of the library
    (one of 2^32 or more would ask for a string longer than an engine
    holds), so [i >>>= 1] is the halving of a positive binary number. *)
Fixpoint pad_loop (i : positive) (z hex : jsstring) : jsstring :=
  match i with
  | xH => z ++ hex
  | xO p => pad_loop p (z ++ z) hex
  | xI p => pad_loop p (z ++ z) (z ++ hex)
  end.

(** [UUID._getIntAligner(radix)(num, length)]. *)
Definition _getIntAligner (radix : Z) (num : number) (length : Z) : jsstring :=
  let hex := Number_toString num radix in
  match length - Z.of_nat (List.length hex) with
  | Zpos i => pad_loop i (str "0") hex
  | _ => hex
  end.

(** ** UUID object component *)

Definition FIELD_NAMES : list string :=
  ["timeLow"; "timeMid"; "timeHiAndVersion";
   "clockSeqHiAndReserved"; "clockSeqLow"; "node"]%string.

Definition sizes : list Z := [32; 16; 16; 8; 8; 48].

Record UUID : Type := mkUUID {
  intFields : list number;
  bitFields : list jsstring;
  hexFields : list jsstring;
  version : Z;
  bitString : jsstring;
  hexString : jsstring
}.

(** Index of a field name, for the accesses [fields[names[i]]] and
    [fields.timeHiAndVersion]. *)
Fixpoint index_of (name : string) (names : list string) : nat :=
  match names with
  | [] => O
  | n :: rest => if String.eqb n name then O else S (index_of name rest)
  end.

Definition named {A} (fields : list A) (name : string) (d : A) : A :=
  nth (index_of name FIELD_NAMES) fields d.

(** [UUID.prototype._init], on the list of its actual arguments. *)
Definition _init (arguments : list number) : UUID :=
  let bin := _getIntAligner 2 in
  let hex := _getIntAligner 16 in
  let idx := seq 0 (List.length sizes) in
  let ints :=
    map (fun i => parseInt (ToString (or_zero (nth_error arguments i))) None) idx in
  let bits := map (fun i => bin (nth i ints NaN) (nth i sizes 0)) idx in
  let hexs := map (fun i => hex (nth i ints NaN) (nth i sizes 0 / 4)) idx in
  {| intFields := ints;
     bitFields := bits;
     hexFields := hexs;
     version := band (Num (sar (named ints "timeHiAndVersion" NaN) (Num 12))) (Num 0xF);
     bitString := List.concat bits;
     hexString := nth 0 hexs [] ++ str "-" ++ nth 1 hexs [] ++ str "-"
                  ++ nth 2 hexs [] ++ str "-" ++ nth 3 hexs [] ++ nth 4 hexs []
                  ++ str "-" ++ nth 5 hexs [] |}.

(** [UUID.genV4]. *)
Definition genV4 : Rand UUID :=
  a <- _getRandomInt 32 ;;
  b <- _getRandomInt 16 ;;
  c <- _getRandomInt 12 ;;
  d <- _getRandomInt 6 ;;
  e <- _getRandomInt 8 ;;
  f <- _getRandomInt 48 ;;
  ret (_init [a; b; Num (bor (Num 0x4000) c); Num (bor (Num 0x80) d); e; f]).

(** The character class [[0-9a-f]] under the [i] flag. *)
Definition is_hex_digit (c : ascii) : bool :=
  let n := code c in
  ((48 <=? n) && (n <=? 57)) || ((97 <=? n) && (n <=? 102))
  || ((65 <=? n) && (n <=? 70)).

(** The capturing group [([0-9a-f]{n})]: the group and the rest. *)
Fixpoint hex_group (n : nat) (s : jsstring) : option (jsstring * jsstring) :=
  match n with
  | O => Some ([], s)
  | S n' =>
      match s with
      | c :: t =>
          if is_hex_digit c then
            match hex_group n' t with
            | Some (g, rest) => Some (c :: g, rest)
            | None => None
            end
          else None
      | [] => None
      end
  end.

Definition hyphen (s : jsstring) : option jsstring :=
  match s with
  | c :: t => if Ascii.eqb c "-" then Some t else None
  | [] => None
  end.

Notation "'let?' x := m 'in' k" :=
  (match m with Some x => k | None => None end)
  (at level 10, x pattern, m at level 100, k at level 200).

(** [p.exec(strId)] for the anchored pattern of [UUID.parse]: the six
    captured groups, or [None] for null. *)
Definition exec_pattern (strId : jsstring) : option (list jsstring) :=
  let? (r1, s) := hex_group 8 strId in
  let? s := hyphen s in
  let? (r2, s) := hex_group 4 s in
  let? s := hyphen s in
  let? (r3, s) := hex_group 4 s in
  let? s := hyphen s in
  let? (r4, s) := hex_group 2 s in
  let? (r5, s) := hex_group 2 s in
  let? s := hyphen s in
  let? (r6, s) := hex_group 12 s in
  match s with
  | [] => Some [r1; r2; r3; r4; r5; r6]
  | _ => None
  end.

(** [UUID.parse]; [None] is null. *)
Definition parse (strId : jsstring) : option UUID :=
  match exec_pattern strId with
  | Some r => Some (_init (map (fun g => parseInt g (Some 16)) r))
  | None => None
  end.

(** [UUID.prototype.toString]. *)
Definition toString (this : UUID) : jsstring := hexString this.

(** [UUID.prototype.equals]; the argument is a UUID or null. *)
Definition equals (this : UUID) (uuid : option UUID) : bool :=
  match uuid with
  | None => false
  | Some other =>
      forallb
        (fun i =>
           match nth_error (intFields this) i, nth_error (intFields other) i with
           | Some a, Some b => strict_eq a b
           | None, None => true
           | _, _ => false
           end)
        (seq 0 (List.length (intFields this)))
  end.

(** ** UUID version 1 component *)

Record UUIDState : Type := mkState {
  timestamp : number;
  sequence : number;
  node : number;
  tick : number
}.

Definition _tsRatio : Q := 1 # 8.

(** [UUID._state = new function UUIDState() { ... }]. *)
Definition _state : Rand UUIDState :=
  sq <- _getRandomInt 14 ;;
  hi8 <- _getRandomInt 8 ;;
  lo40 <- _getRandomInt 40 ;;
  ret {| timestamp := Num 0;
         sequence := sq;
         node := nadd (nmul (Num (bor hi8 (Num 1))) (Num 0x10000000000)) lo40;
         tick := Num 0 |}.

Module TF.
Record t : Type := mk { low : Z; mid : Z; hi : Z; timestamp : number }.
End TF.

(** The integer part of the double [(ts / 0x100000000) * 10000]: the
    division by a power of two is exact, the product is rounded once. *)
Definition scaled_ticks (ts : Z) : Z :=
  Z.quot (round53 (ts * 10000)) 0x100000000.

(** [UUID._getTimeFieldValues]. *)
Definition _getTimeFieldValues (time : number) : TF.t :=
  let ts := nsub time (Num (Date_UTC 1582 9 15)) in
  let hm :=
    match ts with
    | Num z => band (Num (scaled_ticks z)) (Num 0xFFFFFFF)
    | NaN => band NaN (Num 0xFFFFFFF)
    end in
  {| TF.low := nrem (band ts (Num 0xFFFFFFF) * 10000) 0x100000000;
     TF.mid := band (Num hm) (Num 0xFFFF);
     TF.hi := shr (Num hm) (Num 16);
     TF.timestamp := ts |}.

Definition incr_sequence (st : UUIDState) : UUIDState :=
  {| timestamp := timestamp st; sequence := nadd (sequence st) (Num 1);
     node := node st; tick := tick st |}.

Definition incr_tick (st : UUIDState) : UUIDState :=
  {| timestamp := timestamp st; sequence := sequence st;
     node := node st; tick := nadd (tick st) (Num 1) |}.

(** The first statement of [UUID.genV1]: the update of the state for the
    clock reading [now]. *)
Definition advance (now : Z) (st : UUIDState) : Rand UUIDState :=
  if negb (strict_eq (Num now) (timestamp st)) then
    let st1 := if nlt (Num now) (timestamp st) then incr_sequence st else st in
    ret {| timestamp := Num now; sequence := sequence st1;
           node := node st1; tick := Num 0 |}
  else
    r <- Math_random ;;
    if (if Qlt_le_dec r _tsRatio then true else false) && nlt (tick st) (Num 9999)
    then ret (incr_tick st)
    else ret (incr_sequence st).

(** [UUID.genV1], for the clock reading [now] and the persistent state
    [st]: the UUID and the state left behind. *)
Definition genV1 (now : Z) (st : UUIDState) : Rand (UUID * UUIDState) :=
  st1 <- advance now st ;;
  let tf := _getTimeFieldValues (timestamp st1) in
  let tl := nadd (Num (TF.low tf)) (tick st1) in
  let thav := bor (Num (band (Num (TF.hi tf)) (Num 0xFFF))) (Num 0x1000) in
  let st2 := {| timestamp := timestamp st1;
                sequence := Num (band (sequence st1) (Num 0x3FFF));
                node := node st1; tick := tick st1 |} in
  let cshar := bor (Num (shr (sequence st2) (Num 8))) (Num 0x80) in
  let csl := band (sequence st2) (Num 0xFF) in
  ret (_init [tl; Num (TF.mid tf); Num thav; Num cshar; Num csl; node st2], st2).

(** ** Notions used to state the properties *)

(** A character that is a digit in radix [R], and the digit values of a
    string. *)
Definition is_digit (R : Z) (c : ascii) : bool :=
  match digit_val c with
  | Some d => d <? R
  | None => false
  end.

Definition vals (cs : jsstring) : list Z :=
  map (fun c => match digit_val c with Some d => d | None => 0 end) cs.

Definition all_digits (R : Z) (cs : jsstring) : Prop :=
  Forall (fun c => is_digit R c = true) cs.

(** The value of a digit sequence, most significant digit first. *)
Fixpoint digits_value (R : Z) (ds : list Z) : Z :=
  match ds with
  | [] => 0
  | d :: t => d * R ^ Z.of_nat (List.length t) + digits_value R t
  end.

(** The canonical textual form, in the words of the specification:
    hexadecimal digits of either case, in groups of 8, 4, 4, 2 + 2 and
    12, the hyphens between the groups. *)
Definition hex_digit (c : ascii) : Prop := In c (str "0123456789abcdefABCDEF").

Definition hex_group_of (n : nat) (g : jsstring) : Prop :=
  List.length g = n /\ Forall hex_digit g.

Definition canonical_groups (s g1 g2 g3 g4 g5 g6 : jsstring) : Prop :=
  s = g1 ++ str "-" ++ g2 ++ str "-" ++ g3 ++ str "-" ++ g4 ++ g5
      ++ str "-" ++ g6
  /\ hex_group_of 8 g1 /\ hex_group_of 4 g2 /\ hex_group_of 4 g3
  /\ hex_group_of 2 g4 /\ hex_group_of 2 g5 /\ hex_group_of 12 g6.

Definition canonical (s : jsstring) : Prop :=
  exists g1 g2 g3 g4 g5 g6, canonical_groups s g1 g2 g3 g4 g5 g6.

(** The groups as the matcher finds them. *)
Definition matched (s g1 g2 g3 g4 g5 g6 : jsstring) : Prop :=
  s = g1 ++ str "-" ++ g2 ++ str "-" ++ g3 ++ str "-" ++ g4 ++ g5
      ++ str "-" ++ g6
  /\ (List.length g1 = 8%nat /\ all_digits 16 g1)
  /\ (List.length g2 = 4%nat /\ all_digits 16 g2)
  /\ (List.length g3 = 4%nat /\ all_digits 16 g3)
  /\ (List.length g4 = 2%nat /\ all_digits 16 g4)
  /\ (List.length g5 = 2%nat /\ all_digits 16 g5)
  /\ (List.length g6 = 12%nat /\ all_digits 16 g6).

(** Hexadecimal decoding of a group, digit by digit. *)
Fixpoint position (c : ascii) (alphabet : jsstring) : Z :=
  match alphabet with
  | [] => 0
  | a :: rest => if Ascii.eqb a c then 0 else 1 + position c rest
  end.

Definition hex_digit_value (c : ascii) : Z :=
  position (to_lower c) (str "0123456789abcdef").

Definition hex_value (g : jsstring) : Z :=
  fold_left (fun a c => 16 * a + hex_digit_value c) g 0.

(** What [_init] stores for its arguments: each one, absent or falsy
    ones as 0. *)
Definition stored (arguments : list number) : list number :=
  map (fun i => or_zero (nth_error arguments i)) (seq 0 6).

(** The integer held by field [i], and the width invariant. *)
Definition field (u : UUID) (i : nat) : number := nth i (intFields u) NaN.

Definition fits (n : number) (w : Z) : Prop :=
  exists z, n = Num z /\ 0 <= z < 2 ^ w.

Definition width_invariant (u : UUID) : Prop :=
  fits (field u 0) 32 /\ fits (field u 1) 16 /\ fits (field u 2) 16
  /\ fits (field u 3) 8 /\ fits (field u 4) 8 /\ fits (field u 5) 48.

(** The round trip [parse(u.toString()).equals(u)]: the rendering is
    parsed, and the parsed UUID equals [u]. *)
Definition parses_back (u : UUID) : Prop :=
  exists p, parse (toString u) = Some p /\ equals p (Some u) = true.

(** The clock sequence that a UUID encodes. *)
Definition clock_sequence (u : UUID) : Z :=
  bor (Num (shl (Num (band (field u 3) (Num 0x3F))) (Num 8))) (field u 4).

(** The count of 100-nanosecond intervals between 1582-10-15 and the
    millisecond timestamp [t]. *)
Definition intervals (t : Z) : Z := (t - Date_UTC 1582 9 15) * 10000.

(** A run of the process: successive calls of [UUID.genV1], one for
    each clock reading, on the persistent state. *)
Fixpoint generate (nows : list Z) (st : UUIDState) : Rand (list UUID * UUIDState) :=
  match nows with
  | [] => ret ([], st)
  | now :: rest =>
      p <- genV1 now st ;;
      q <- generate rest (snd p) ;;
      ret (fst p :: fst q, snd q)
  end.

(** Whether an argument lies where the decimal rendering read back by
    parseInt is exact. *)
Definition plain_decimal (n : number) : Prop :=
  match n with
  | Num z => Z.abs z < 10 ^ 21
  | NaN => True
  end.

(** Concrete sources, instants and values used in examples. *)
Definition zero_source : Source := fun _ => 0%Q.

Definition half_source : Source := fun _ => (1 # 2)%Q.

Definition sample_text : jsstring := str "12345678-1234-5678-9abc-123456789012".

Definition sample_upper : jsstring := str "12345678-1234-5678-9ABC-123456789012".

Definition sample_uuid : UUID :=
  _init [Num 0x12345678; Num 0x1234; Num 0x5678; Num 0x9a; Num 0xbc;
         Num 0x123456789012].

Definition sample_state : UUIDState :=
  {| timestamp := Num 0; sequence := Num 16383; node := Num 0x10000000001;
     tick := Num 0 |}.

(** 2010-07-10T22:10:50.863Z and 2039-06-21T16:15:07.631Z. *)
Definition overflow_instant : Z := 1278799850863.

Definition inexact_instant : Z := 2192285707631.

(** ** The string generator

    [UUID.generate], the version 4 UUID as a string; it keeps its name
    in a module, [generate] alone being the run of [UUID.genV1]. *)
Module UUID.
Definition generate : Rand jsstring :=
  let hex := _getIntAligner 16 in
  a <- _getRandomInt 32 ;;
  b <- _getRandomInt 16 ;;
  c <- _getRandomInt 12 ;;
  d <- _getRandomInt 14 ;;
  e <- _getRandomInt 48 ;;
  ret (hex a 8 ++ str "-" ++ hex b 4 ++ str "-"
       ++ hex (Num (bor (Num 0x4000) c)) 4 ++ str "-"
       ++ hex (Num (bor (Num 0x8000) d)) 4 ++ str "-" ++ hex e 12).
End UUID.

(** ** Further notions *)

(** The states that the library reaches: numeric fields, a tick of at
    most 9999, a 14-bit sequence and a 48-bit node whose first octet is
    not 0. *)
Definition well_formed (st : UUIDState) : Prop :=
  exists t m n k,
    timestamp st = Num t /\ sequence st = Num m /\ node st = Num n
    /\ tick st = Num k
    /\ 0 <= m < 2 ^ 14 /\ 2 ^ 40 <= n < 2 ^ 48 /\ 0 <= k <= 9999.

(** The state that a run leaves behind. *)
Definition final_state (nows : list Z) (st : UUIDState) (r : Source) : UUIDState :=
  snd (fst (generate nows st r)).

(** A source whose first two draws are given. *)
Definition two_draws (q0 q1 : Q) : Source :=
  fun i => match i with O => q0 | _ => q1 end.

(** The draws that give the [x]-bit integer [n]. *)
Definition draws_for (x n : Z) : Source :=
  if x <=? 30 then two_draws (n # Z.to_pos (2 ^ x)) 0
  else two_draws ((n mod 2 ^ 30) # Z.to_pos (2 ^ 30))
                 ((n / 2 ^ 30) # Z.to_pos (2 ^ (x - 30))).

(** A binary digit. *)
Definition is_bit (c : ascii) : Prop := c = "0"%char \/ c = "1"%char.

(** The 128-bit number that six fields denote. *)
Definition number128 (a b c d e f : Z) : Z :=
  a * 2 ^ 96 + b * 2 ^ 80 + c * 2 ^ 64 + d * 2 ^ 56 + e * 2 ^ 48 + f.

(** The 60-bit timestamp that the time fields of a UUID hold. *)
Definition timestamp60 (u : UUID) : number :=
  nadd (nadd (nmul (Num (band (field u 2) (Num 0xFFF))) (Num (2 ^ 48)))
             (nmul (field u 1) (Num (2 ^ 32))))
       (field u 0).

(** The UUID [u], made at the clock reading [now], shows the tick [k]
    and the clock sequence [m]. *)
Definition shows (now : Z) (u : UUID) (k m : Z) : Prop :=
  field u 0 = Num (TF.low (_getTimeFieldValues (Num now)) + k)
  /\ field u 3 = Num (m / 2 ^ 8 + 128)
  /\ field u 4 = Num (m mod 2 ^ 8).

(** The draws put before a source. *)
Definition before (q : Q) (s : Source) : Source :=
  fun i => match i with O => q | S j => s j end.

(** The draws that give the [x]-bit integer [n], then those of [s]. *)
Definition draws_then (x n : Z) (s : Source) : Source :=
  if x <=? 30 then before (n # Z.to_pos (2 ^ x)) s
  else before ((n mod 2 ^ 30) # Z.to_pos (2 ^ 30))
              (before ((n / 2 ^ 30) # Z.to_pos (2 ^ (x - 30))) s).

(** The draws from which [genV4] makes the fields [a], [b],
    [0x4000 | c], [0x80 | d], [e] and [f]. *)
Definition draws_v4 (a b c d e f : Z) : Source :=
  draws_then 32 a (draws_then 16 b (draws_then 12 c (draws_then 6 d
    (draws_then 8 e (draws_then 48 f zero_source))))).

(** ** Properties of the primitives *)

Section Int32.

Lemma to_int32_small z : - 2^31 <= z < 2^31 -> to_int32 z = z.
Proof.
  intros H. unfold to_int32. rewrite Z.mod_small; lia.
Qed.

Lemma to_int32_mod z k : 0 <= k <= 32 -> to_int32 z mod 2 ^ k = z mod 2 ^ k.
Proof.
  intros Hk. unfold to_int32.
  assert (Hd : 2 ^ 32 = 2 ^ k * 2 ^ (32 - k)).
  { rewrite <- Z.pow_add_r by lia. f_equal. lia. }
  assert (Hp : 0 < 2 ^ k) by (apply Z.pow_pos_nonneg; lia).
  assert (Hq : 0 < 2 ^ (32 - k)) by (apply Z.pow_pos_nonneg; lia).
  assert (H31 : 2 ^ 31 mod 2 ^ k = 0 \/ k = 32).
  { destruct (Z.eq_dec k 32) as [->|Hne]; [now right|left].
    replace 31 with ((31 - k) + k) by lia.
    rewrite Z.pow_add_r by lia. apply Z.mod_mul. lia. }
  destruct H31 as [H31| ->].
  - rewrite Zminus_mod, H31, Z.sub_0_r, Z.mod_mod by lia.
    rewrite Hd, Z.rem_mul_r by lia.
    rewrite Z.mul_comm, Z.mod_add by lia. rewrite Z.mod_mod by lia.
    rewrite Zplus_mod, H31, Z.add_0_r, Z.mod_mod by lia. reflexivity.
  - rewrite Zminus_mod, Z.mod_mod by lia.
    rewrite <- Zminus_mod. f_equal. lia.
Qed.

Lemma to_int32_range z : - 2^31 <= to_int32 z < 2^31.
Proof.
  unfold to_int32. pose proof (Z.mod_pos_bound (z + 2^31) (2^32)). lia.
Qed.

(** [n & (2^k - 1)] keeps the low [k] bits. *)
Lemma band_ones n k :
  0 <= k <= 31 -> band n (Num (Z.ones k)) = ToInt32 n mod 2 ^ k.
Proof.
  intros Hk. unfold band.
  assert (Hp : 0 < 2 ^ k) by (apply Z.pow_pos_nonneg; lia).
  assert (Hle : 2 ^ k <= 2 ^ 31) by (apply Z.pow_le_mono_r; lia).
  assert (Ho : ToInt32 (Num (Z.ones k)) = Z.ones k).
  { simpl. apply to_int32_small. rewrite Z.ones_equiv. lia. }
  rewrite Ho, Z.land_ones by lia.
  apply to_int32_small.
  pose proof (Z.mod_pos_bound (ToInt32 n) (2 ^ k)). lia.
Qed.

Lemma band_low z k :
  0 <= k <= 31 -> band (Num z) (Num (Z.ones k)) = z mod 2 ^ k.
Proof.
  intros Hk. rewrite band_ones by lia. simpl. apply to_int32_mod. lia.
Qed.

Lemma land_pow2_small a k : 0 <= a < 2 ^ k -> Z.land a (2 ^ k) = 0.
Proof.
  intros [Ha Hlt].
  assert (Hk : 0 <= k).
  { destruct (Z_lt_le_dec k 0) as [Hneg|]; [|lia].
    rewrite Z.pow_neg_r in Hlt by lia. lia. }
  apply Z.bits_inj'. intros n Hn.
  rewrite Z.land_spec, Z.bits_0, Z.pow2_bits_eqb by lia.
  destruct (Z.eqb_spec k n) as [->|Hne].
  - rewrite andb_true_r.
    destruct (Z.eq_dec a 0) as [->|Hnz]; [apply Z.bits_0|].
    apply Z.bits_above_log2; [lia|]. apply Z.log2_lt_pow2; lia.
  - apply andb_false_r.
Qed.

(** Setting a flag bit above the value adds it. *)
Lemma bor_flag a k :
  0 <= k <= 30 -> 0 <= a < 2 ^ k -> bor (Num a) (Num (2 ^ k)) = a + 2 ^ k.
Proof.
  intros Hk Ha. unfold bor. simpl.
  assert (Hle : 2 ^ k <= 2 ^ 30) by (apply Z.pow_le_mono_r; lia).
  change (2 ^ 30) with 1073741824 in Hle.
  rewrite (to_int32_small a), (to_int32_small (2 ^ k)) by (simpl; lia).
  rewrite <- Z.lxor_lor, <- Z.add_nocarry_lxor by (apply land_pow2_small; lia).
  apply to_int32_small. simpl. lia.
Qed.

Lemma bor_flag_l a k :
  0 <= k <= 30 -> 0 <= a < 2 ^ k -> bor (Num (2 ^ k)) (Num a) = 2 ^ k + a.
Proof.
  intros Hk Ha. unfold bor. rewrite Z.lor_comm, Z.add_comm.
  apply (bor_flag a k Hk Ha).
Qed.

Lemma bor_0_l z : 0 <= z < 2^31 -> bor (Num 0) (Num z) = z.
Proof.
  intros H. unfold bor. simpl ToInt32. rewrite (to_int32_small 0) by (simpl; lia).
  rewrite (to_int32_small z) by lia. rewrite Z.lor_0_l.
  apply to_int32_small. lia.
Qed.

Lemma shl_1 k : 0 <= k <= 30 -> shl (Num 1) (Num k) = 2 ^ k.
Proof.
  intros H. unfold shl, ToUint32, ToInt32, to_uint32.
  rewrite (to_int32_small 1) by (simpl; lia).
  assert (k mod 2 ^ 32 = k) as -> by (apply Z.mod_small; simpl; lia).
  rewrite (Z.mod_small k) by lia.
  rewrite Z.shiftl_1_l.
  assert (2 ^ k <= 2 ^ 30) by (apply Z.pow_le_mono_r; lia).
  assert (0 < 2 ^ k) by (apply Z.pow_pos_nonneg; lia).
  apply to_int32_small. simpl in *. lia.
Qed.

Lemma count_small k : 0 <= k < 32 -> ToUint32 (Num k) mod 32 = k.
Proof.
  intros H. unfold ToUint32, to_uint32.
  rewrite (Z.mod_small k (2 ^ 32)) by (simpl; lia). apply Z.mod_small. lia.
Qed.

Lemma sar_small a k :
  0 <= k < 32 -> 0 <= a < 2 ^ 31 -> sar (Num a) (Num k) = a / 2 ^ k.
Proof.
  intros Hk Ha. unfold sar. rewrite count_small by lia.
  simpl ToInt32. rewrite to_int32_small by lia.
  apply Z.shiftr_div_pow2. lia.
Qed.

Lemma shr_small a k :
  0 <= k < 32 -> 0 <= a < 2 ^ 32 -> shr (Num a) (Num k) = a / 2 ^ k.
Proof.
  intros Hk Ha. unfold shr. rewrite count_small by lia.
  unfold ToUint32, to_uint32. rewrite Z.mod_small by lia.
  apply Z.shiftr_div_pow2. lia.
Qed.

End Int32.

Section RandomInt.

Lemma Qtrunc_scale (r : Q) (k : Z) :
  (0 <= r)%Q -> (r < 1)%Q -> 0 < k ->
  Qtrunc (r * inject_Z k) = Qfloor (r * inject_Z k)
  /\ 0 <= Qtrunc (r * inject_Z k) < k.
Proof.
  destruct r as [a b]. unfold Qle, Qlt, Qtrunc, Qfloor; simpl. intros Ha Hb Hk.
  assert (Ha' : 0 <= a) by lia. assert (Hb' : a < Z.pos b) by lia.
  rewrite Pos.mul_1_r.
  assert (0 <= a * k) by nia.
  rewrite Z.quot_div_nonneg by lia. split; [reflexivity|].
  split.
  - apply Z.div_pos; lia.
  - apply Z.div_lt_upper_bound; nia.
Qed.

(** One scaled and truncated draw, [0 | Math.random() * (1 << k)]. *)
Lemma draw_bits (r : Q) (k : Z) :
  (0 <= r)%Q -> (r < 1)%Q -> 0 <= k <= 30 ->
  bor (Num 0) (Num (Qtrunc (r * inject_Z (shl (Num 1) (Num k)))))
  = Qfloor (r * inject_Z (2 ^ k))
  /\ 0 <= Qfloor (r * inject_Z (2 ^ k)) < 2 ^ k.
Proof.
  intros H0 H1 Hk. rewrite shl_1 by lia.
  assert (Hp : 0 < 2 ^ k) by (apply Z.pow_pos_nonneg; lia).
  assert (Hle : 2 ^ k <= 2 ^ 30) by (apply Z.pow_le_mono_r; lia).
  destruct (Qtrunc_scale r (2 ^ k) H0 H1 Hp) as [He Hr].
  rewrite <- He. split; [|exact Hr].
  apply bor_0_l. simpl in *. lia.
Qed.

Lemma fair_tail (s : Source) : fair s -> fair (fun n => s (S n)).
Proof. intros H n. apply H. Qed.

Lemma getRandomInt_low (x : Z) (s : Source) :
  fair s -> 0 <= x <= 30 ->
  _getRandomInt x s
  = (Num (Qfloor (s 0%nat * inject_Z (2 ^ x))), fun n => s (S n))
  /\ 0 <= Qfloor (s 0%nat * inject_Z (2 ^ x)) < 2 ^ x.
Proof.
  intros Hs Hx. unfold _getRandomInt.
  destruct (Z.ltb_spec x 0); [lia|].
  destruct (Z.leb_spec x 30); [|lia].
  destruct (Hs 0%nat) as [Ha Hb].
  destruct (draw_bits (s 0%nat) x Ha Hb Hx) as [He Hr].
  unfold bind, Math_random, ret; cbv zeta; simpl fst; simpl snd.
  rewrite He. split; [reflexivity|exact Hr].
Qed.

Lemma getRandomInt_high (x : Z) (s : Source) :
  fair s -> 30 < x <= 53 ->
  _getRandomInt x s
  = (Num (Qfloor (s 0%nat * inject_Z (2 ^ 30))
          + Qfloor (s 1%nat * inject_Z (2 ^ (x - 30))) * 2 ^ 30),
     fun n => s (S (S n)))
  /\ 0 <= Qfloor (s 0%nat * inject_Z (2 ^ 30))
          + Qfloor (s 1%nat * inject_Z (2 ^ (x - 30))) * 2 ^ 30 < 2 ^ x.
Proof.
  intros Hs Hx. unfold _getRandomInt.
  destruct (Z.ltb_spec x 0); [lia|].
  destruct (Z.leb_spec x 30); [lia|].
  destruct (Z.leb_spec x 53); [|lia].
  destruct (Hs 0%nat) as [Ha Hb]. destruct (Hs 1%nat) as [Hc Hd].
  destruct (draw_bits (s 0%nat) 30 Ha Hb ltac:(lia)) as [He Hr].
  destruct (draw_bits (s 1%nat) (x - 30) Hc Hd ltac:(lia)) as [He' Hr'].
  unfold bind, Math_random, ret; cbv zeta; simpl fst; simpl snd.
  rewrite He, He', (shl_1 30) by lia.
  split; [reflexivity|].
  replace (2 ^ x) with (2 ^ (x - 30) * 2 ^ 30)
    by (rewrite <- Z.pow_add_r by lia; f_equal; lia).
  nia.
Qed.

End RandomInt.

(** C8: for an integer width [x] in [0, 53] and fair draws,
    [_getRandomInt x] returns an integer in [0, 2^x); above 30 bits it
    is [low + high * 2^30] for two successive draws; for [x < 0] or
    [x > 53] it returns NaN. *)
Theorem getRandomInt_range (x : Z) (s : Source) :
  fair s ->
  (0 <= x <= 53 ->
   exists n, fst (_getRandomInt x s) = Num n /\ 0 <= n < 2 ^ x)
  /\ (30 < x <= 53 ->
      fst (_getRandomInt x s)
      = Num (Qfloor (s 0%nat * inject_Z (2 ^ 30))
             + Qfloor (s 1%nat * inject_Z (2 ^ (x - 30))) * 2 ^ 30))
  /\ (x < 0 \/ 53 < x -> fst (_getRandomInt x s) = NaN).
Proof.
  intros Hs. split; [|split].
  - intros Hx. destruct (Z_le_gt_dec x 30) as [Hlo|Hhi].
    + destruct (getRandomInt_low x s Hs ltac:(lia)) as [He Hr].
      rewrite He. eexists; split; [reflexivity|exact Hr].
    + destruct (getRandomInt_high x s Hs ltac:(lia)) as [He Hr].
      rewrite He. eexists; split; [reflexivity|exact Hr].
  - intros Hx. destruct (getRandomInt_high x s Hs Hx) as [He _].
    now rewrite He.
  - intros Hx. unfold _getRandomInt.
    destruct (Z.ltb_spec x 0); [reflexivity|].
    destruct (Z.leb_spec x 30); [lia|].
    destruct (Z.leb_spec x 53); [lia|reflexivity].
Qed.

(** ** Digits, rendering and parsing *)

Section Digits.

Variable R : Z.
Hypothesis R_lo : 2 <= R.

Lemma pow_R_pos k : 0 <= k -> 0 < R ^ k.
Proof. intros. apply Z.pow_pos_nonneg; lia. Qed.

Lemma digits_value_bound ds :
  Forall (fun d => 0 <= d < R) ds -> 0 <= digits_value R ds < R ^ Z.of_nat (List.length ds).
Proof.
  induction 1 as [|d t Hd _ IH]; simpl digits_value; simpl List.length.
  - simpl. lia.
  - rewrite Nat2Z.inj_succ, Z.pow_succ_r by lia.
    pose proof (pow_R_pos (Z.of_nat (List.length t)) ltac:(lia)).
    nia.
Qed.

Lemma digits_value_app ds es :
  digits_value R (ds ++ es)
  = digits_value R ds * R ^ Z.of_nat (List.length es) + digits_value R es.
Proof.
  induction ds as [|d t IH]; simpl digits_value; [lia|].
  rewrite IH, length_app, Nat2Z.inj_add, Z.pow_add_r by lia. ring.
Qed.

Lemma digits_value_zeros k ds :
  digits_value R (repeat 0 k ++ ds) = digits_value R ds.
Proof.
  induction k as [|k IH]; simpl; [reflexivity|]. rewrite IH. lia.
Qed.

(** Two digit sequences of one length and one value are equal. *)
Lemma digits_value_inj ds es :
  Forall (fun d => 0 <= d < R) ds -> Forall (fun d => 0 <= d < R) es ->
  List.length ds = List.length es ->
  digits_value R ds = digits_value R es -> ds = es.
Proof.
  intros Hds. revert es.
  induction Hds as [|d t Hd Ht IH]; intros es Hes Hlen Hv.
  - destruct es; [reflexivity|discriminate].
  - destruct Hes as [|e u He Hu]; [discriminate|].
    simpl in Hlen. injection Hlen as Hlen.
    simpl in Hv. rewrite <- Hlen in Hv.
    pose proof (digits_value_bound t Ht) as Bt.
    pose proof (digits_value_bound u Hu) as Bu. rewrite <- Hlen in Bu.
    assert (d = e) by nia. subst e.
    f_equal. apply IH; [assumption|assumption|lia].
Qed.

Lemma digits_of_value fuel : forall n acc,
  0 <= n < R ^ Z.of_nat fuel ->
  digits_value R (digits_of fuel R n acc)
  = n * R ^ Z.of_nat (List.length acc) + digits_value R acc.
Proof.
  induction fuel as [|f IH]; intros n acc Hn.
  - simpl in *. assert (n = 0) by lia. subst. lia.
  - simpl digits_of. destruct (Z.ltb_spec n R) as [Hlt|Hge].
    + reflexivity.
    + rewrite Nat2Z.inj_succ, Z.pow_succ_r in Hn by lia.
      rewrite IH.
      * simpl digits_value. simpl List.length.
        rewrite Nat2Z.inj_succ, Z.pow_succ_r by lia.
        pose proof (Z.div_mod n R ltac:(lia)) as Hdm.
        set (p := R ^ Z.of_nat (List.length acc)). nia.
      * split; [apply Z.div_pos; lia|].
        apply Z.div_lt_upper_bound; lia.
Qed.

Lemma digits_of_range fuel : forall n acc,
  0 <= n -> Forall (fun d => 0 <= d < R) acc -> Forall (fun d => 0 <= d < R) (digits_of fuel R n acc).
Proof.
  induction fuel as [|f IH]; intros n acc Hn Hacc; simpl; [assumption|].
  destruct (Z.ltb_spec n R) as [Hlt|Hge].
  - constructor; [split; lia|assumption].
  - apply IH; [apply Z.div_pos; lia|].
    constructor; [|assumption]. apply Z.mod_pos_bound. lia.
Qed.

Lemma digits_of_length fuel : forall n acc w,
  0 <= n < R ^ Z.of_nat w -> (1 <= w)%nat ->
  (List.length (digits_of fuel R n acc) <= w + List.length acc)%nat.
Proof.
  induction fuel as [|f IH]; intros n acc w Hn Hw; simpl; [lia|].
  destruct (Z.ltb_spec n R) as [Hlt|Hge]; [simpl; lia|].
  destruct w as [|w]; [lia|].
  rewrite Nat2Z.inj_succ, Z.pow_succ_r in Hn by lia.
  destruct w as [|w]; [simpl in Hn; lia|].
  specialize (IH (n / R) (n mod R :: acc) (S w)).
  simpl List.length in IH.
  assert (Hq : 0 <= n / R < R ^ Z.of_nat (S w)).
  { split; [apply Z.div_pos; lia|]. apply Z.div_lt_upper_bound; lia. }
  specialize (IH Hq ltac:(lia)). lia.
Qed.

Lemma digits_of_nonempty fuel n acc : digits_of (S fuel) R n acc <> [].
Proof.
  revert n acc. induction fuel as [|f IH]; intros n acc.
  - simpl. destruct (n <? R); discriminate.
  - change (digits_of (S (S f)) R n acc)
      with (if n <? R then n :: acc
            else digits_of (S f) R (n / R) (n mod R :: acc)).
    destruct (n <? R); [discriminate|apply IH].
Qed.

Lemma digits_fuel_enough n : 0 <= n -> n < R ^ Z.of_nat (digits_fuel n).
Proof.
  intros Hn. unfold digits_fuel.
  rewrite Nat2Z.inj_succ, Z2Nat.id by apply Z.log2_nonneg.
  destruct (Z.eq_dec n 0) as [->|Hnz].
  - apply pow_R_pos. pose proof (Z.log2_nonneg 0). lia.
  - destruct (Z.log2_spec n ltac:(lia)) as [_ Hup].
    apply Z.lt_le_trans with (1 := Hup).
    apply Z.pow_le_mono_l. pose proof (Z.log2_nonneg n). lia.
Qed.

End Digits.

Section Characters.

Ltac ascii_cases c := destruct c as [[] [] [] [] [] [] [] []].

Lemma digit_val_char d : 0 <= d < 36 -> digit_val (digit_char d) = Some d.
Proof.
  intros Hd. rewrite <- (Z2Nat.id d) at 2 by lia.
  assert (Hn : (Z.to_nat d < 36)%nat) by lia.
  unfold digit_char. revert Hn. generalize (Z.to_nat d) as n. intros n Hn.
  do 36 (destruct n as [|n]; [reflexivity|]). lia.
Qed.

Lemma is_digit_val R c :
  is_digit R c = true ->
  exists d, digit_val c = Some d /\ 0 <= d < R
            /\ match digit_val c with Some d => d | None => 0 end = d.
Proof.
  unfold is_digit. destruct (digit_val c) as [d|] eqn:E; [|discriminate].
  intros H. exists d. repeat split; try lia.
  unfold digit_val in E.
  destruct ((48 <=? code c) && (code c <=? 57)) eqn:E1;
    [injection E as <-; lia|].
  destruct ((97 <=? code c) && (code c <=? 122)) eqn:E2;
    [injection E as <-; lia|].
  destruct ((65 <=? code c) && (code c <=? 90)) eqn:E3;
    [injection E as <-; lia|discriminate].
Qed.

Lemma is_digit_mono R R' c : R <= R' -> is_digit R c = true -> is_digit R' c = true.
Proof.
  unfold is_digit. destruct (digit_val c); [|discriminate].
  intros H1 H2. apply Z.ltb_lt. apply Z.ltb_lt in H2. lia.
Qed.

Lemma is_digit_char R d : 0 <= d < R -> R <= 36 -> is_digit R (digit_char d) = true.
Proof.
  intros Hd HR. unfold is_digit. rewrite digit_val_char by lia.
  apply Z.ltb_lt. lia.
Qed.

(** What a hexadecimal digit is not: white space, a sign, an [x]. *)
Lemma hex_char_plain c :
  implb (is_digit 16 c)
        (negb (is_white c) && negb (Ascii.eqb c "-") && negb (Ascii.eqb c "+")
         && negb (Ascii.eqb c "x") && negb (Ascii.eqb c "X")) = true.
Proof. ascii_cases c; reflexivity. Qed.

Lemma is_hex_digit_16 c : is_hex_digit c = is_digit 16 c.
Proof. ascii_cases c; reflexivity. Qed.

Lemma hex_digit_lower c :
  implb (is_digit 16 c)
        (Ascii.eqb
           (digit_char (match digit_val c with Some d => d | None => 0 end))
           (to_lower c)) = true.
Proof. ascii_cases c; reflexivity. Qed.

Lemma hex_digit_value_val c :
  implb (is_digit 16 c)
        (hex_digit_value c =? match digit_val c with Some d => d | None => 0 end)
  = true.
Proof. ascii_cases c; reflexivity. Qed.

Lemma hex_digit_dec c : hex_digit c <-> is_hex_digit c = true.
Proof.
  unfold hex_digit. split.
  - intros H. simpl in H.
    repeat (destruct H as [<-|H]; [reflexivity|]). contradiction.
  - ascii_cases c; intros H; try discriminate H; simpl; tauto.
Qed.

End Characters.

Section ParseInt.

Lemma vals_length cs : List.length (vals cs) = List.length cs.
Proof. apply length_map. Qed.

Lemma vals_range R cs :
  all_digits R cs -> Forall (fun d => 0 <= d < R) (vals cs).
Proof.
  induction 1 as [|c t Hc _ IH]; simpl; constructor; [|exact IH].
  destruct (is_digit_val R c Hc) as (d & _ & Hd & ->). exact Hd.
Qed.

Lemma vals_chars ds :
  Forall (fun d => 0 <= d < 36) ds -> vals (map digit_char ds) = ds.
Proof.
  induction 1 as [|d t Hd _ IH]; simpl; [reflexivity|].
  rewrite digit_val_char by lia. f_equal. exact IH.
Qed.

Lemma all_digits_chars R ds :
  R <= 36 -> Forall (fun d => 0 <= d < R) ds -> all_digits R (map digit_char ds).
Proof.
  intros HR. induction 1 as [|d t Hd _ IH]; simpl; constructor; [|exact IH].
  apply is_digit_char; lia.
Qed.

Lemma parse_digits_acc R cs :
  all_digits R cs -> forall a,
  parse_digits R cs (Some a)
  = Some (a * R ^ Z.of_nat (List.length cs) + digits_value R (vals cs)).
Proof.
  induction 1 as [|c t Hc _ IH]; intros a.
  - simpl. f_equal. lia.
  - destruct (is_digit_val R c Hc) as (d & Ed & Hd & Ev).
    simpl parse_digits. simpl vals. simpl digits_value. rewrite Ev, Ed.
    destruct (Z.ltb_spec d R); [|lia].
    rewrite IH. f_equal. fold (vals t). simpl List.length.
    rewrite vals_length, Nat2Z.inj_succ, Z.pow_succ_r by lia. ring.
Qed.

Lemma parse_digits_all R cs :
  all_digits R cs -> cs <> [] ->
  parse_digits R cs None = Some (digits_value R (vals cs)).
Proof.
  intros H Hne. destruct H as [|c t Hc Ht]; [congruence|].
  destruct (is_digit_val R c Hc) as (d & Ed & Hd & Ev).
  simpl parse_digits. simpl vals. simpl digits_value. rewrite Ev, Ed.
  destruct (Z.ltb_spec d R); [|lia].
  rewrite (parse_digits_acc R t Ht). fold (vals t). now rewrite vals_length.
Qed.

Lemma hex_not_x c :
  is_digit 16 c = true ->
  is_white c = false /\ Ascii.eqb c "-" = false /\ Ascii.eqb c "+" = false
  /\ (Ascii.eqb c "x" || Ascii.eqb c "X") = false.
Proof.
  intros H. pose proof (hex_char_plain c) as P. rewrite H in P. simpl in P.
  destruct (is_white c), (Ascii.eqb c "-"), (Ascii.eqb c "+"),
    (Ascii.eqb c "x"), (Ascii.eqb c "X"); simpl in P; try discriminate P.
  repeat split.
Qed.

(** A string of digits has neither white space, nor a sign, nor a
    [0x] prefix to strip. *)
Lemma plain_digits cs :
  all_digits 16 cs -> cs <> [] ->
  trim_left cs = cs /\ strip_sign cs = (1, cs) /\ strip_0x cs = None.
Proof.
  intros H Hne. destruct H as [|c t Hc Ht]; [congruence|].
  destruct (hex_not_x c Hc) as (Hw & Hm & Hp & _).
  split; [|split].
  - simpl. now rewrite Hw.
  - simpl. now rewrite Hm, Hp.
  - destruct Ht as [|c1 t1 Hc1 _]; [reflexivity|].
    destruct (hex_not_x c1 Hc1) as (_ & _ & _ & Hx).
    simpl. rewrite Hx. now rewrite andb_false_r.
Qed.

Lemma parseInt_hex cs :
  all_digits 16 cs -> cs <> [] ->
  parseInt cs (Some 16) = Num (digits_value 16 (vals cs)).
Proof.
  intros H Hne. destruct (plain_digits cs H Hne) as (Ht & Hs & Hx).
  unfold parseInt. rewrite Ht, Hs.
  change (to_int32 16) with 16. cbv beta iota zeta.
  change (16 =? 0) with false. change (2 <=? 16) with true.
  change (16 <=? 36) with true. change (16 =? 16) with true.
  cbv beta iota zeta delta [orb andb].
  rewrite Hx. rewrite (parse_digits_all 16 cs H Hne).
  f_equal. lia.
Qed.

Lemma parseInt_decimal cs :
  all_digits 10 cs -> cs <> [] ->
  parseInt cs None = Num (digits_value 10 (vals cs)).
Proof.
  intros H Hne.
  assert (H16 : all_digits 16 cs).
  { eapply Forall_impl; [|exact H]. intros c. apply is_digit_mono. lia. }
  destruct (plain_digits cs H16 Hne) as (Ht & Hs & Hx).
  unfold parseInt. rewrite Ht, Hs.
  cbv beta iota zeta. change (0 =? 0) with true.
  cbv beta iota zeta delta [orb andb].
  rewrite Hx. rewrite (parse_digits_all 10 cs H Hne).
  f_equal; lia.
Qed.

Lemma parseInt_negative cs :
  all_digits 10 cs -> cs <> [] ->
  parseInt ("-"%char :: cs) None = Num (- digits_value 10 (vals cs)).
Proof.
  intros H Hne.
  assert (H16 : all_digits 16 cs).
  { eapply Forall_impl; [|exact H]. intros c. apply is_digit_mono. lia. }
  destruct (plain_digits cs H16 Hne) as (_ & _ & Hx).
  unfold parseInt.
  change (trim_left ("-"%char :: cs)) with ("-"%char :: cs).
  change (strip_sign ("-"%char :: cs)) with (-1, cs).
  cbv beta iota zeta. change (0 =? 0) with true.
  cbv beta iota zeta delta [orb andb].
  rewrite Hx. rewrite (parse_digits_all 10 cs H Hne).
  f_equal; lia.
Qed.

Lemma to_digits_spec R n :
  2 <= R <= 36 -> 0 <= n ->
  all_digits R (to_digits R n) /\ to_digits R n <> []
  /\ digits_value R (vals (to_digits R n)) = n.
Proof.
  intros HR Hn. unfold to_digits.
  assert (Hr : Forall (fun d => 0 <= d < R) (digits_of (digits_fuel n) R n [])).
  { apply digits_of_range; [lia|lia|constructor]. }
  split; [|split].
  - apply all_digits_chars; [lia|exact Hr].
  - unfold digits_fuel. intros E. apply map_eq_nil in E.
    revert E. apply digits_of_nonempty.
  - rewrite vals_chars.
    + pose proof (digits_fuel_enough R ltac:(lia) n Hn) as Hf.
      rewrite digits_of_value by lia.
      simpl. lia.
    + eapply Forall_impl; [|exact Hr]. simpl. intros d. lia.
Qed.

(** parseInt undoes the conversion of an integer to a string. *)
Lemma parseInt_ToString z : parseInt (ToString (Num z)) None = Num z.
Proof.
  unfold ToString, Number_toString.
  destruct (Z.ltb_spec z 0) as [Hneg|Hpos].
  - destruct (to_digits_spec 10 (- z) ltac:(lia) ltac:(lia)) as (Ha & Hne & Hv).
    rewrite parseInt_negative, Hv by assumption. f_equal. lia.
  - destruct (to_digits_spec 10 z ltac:(lia) ltac:(lia)) as (Ha & Hne & Hv).
    rewrite parseInt_decimal, Hv by assumption. reflexivity.
Qed.

End ParseInt.

Section Aligner.

Lemma pad_loop_zeros i : forall k hex,
  pad_loop i (repeat "0"%char k) hex
  = repeat "0"%char (k * Pos.to_nat i) ++ hex.
Proof.
  induction i as [p IH|p IH|]; intros k hex; simpl pad_loop.
  - rewrite <- repeat_app, IH, app_assoc, <- repeat_app.
    f_equal. f_equal. rewrite Pos2Nat.inj_xI. lia.
  - rewrite <- repeat_app, IH. f_equal. f_equal. rewrite Pos2Nat.inj_xO. lia.
  - f_equal. f_equal. rewrite Pos2Nat.inj_1. lia.
Qed.

(** The aligner renders a value below [R^w] with exactly [w] digits. *)
Lemma aligner_digits R v w :
  2 <= R <= 36 -> (1 <= w)%nat -> 0 <= v < R ^ Z.of_nat w ->
  exists ds,
    _getIntAligner R (Num v) (Z.of_nat w) = map digit_char ds
    /\ List.length ds = w
    /\ Forall (fun d => 0 <= d < R) ds
    /\ digits_value R ds = v.
Proof.
  intros HR Hw Hv. unfold _getIntAligner, Number_toString, to_digits.
  destruct (Z.ltb_spec v 0) as [Hneg|_]; [lia|].
  set (hexd := digits_of (digits_fuel v) R v []).
  assert (Hlen : (List.length hexd <= w)%nat).
  { pose proof (digits_of_length R ltac:(lia) (digits_fuel v) v [] w Hv Hw) as L.
    change (List.length (@nil Z)) with 0%nat in L.
    rewrite Nat.add_0_r in L. exact L. }
  assert (Hr : Forall (fun d => 0 <= d < R) hexd).
  { apply digits_of_range; [lia|lia|constructor]. }
  assert (Hval : digits_value R hexd = v).
  { unfold hexd. pose proof (digits_fuel_enough R ltac:(lia) v ltac:(lia)).
    rewrite digits_of_value by lia. simpl. lia. }
  rewrite length_map.
  destruct (Z.of_nat w - Z.of_nat (List.length hexd)) as [|i|i] eqn:E.
  - exists hexd. repeat split; try assumption. lia.
  - exists (repeat 0 (Pos.to_nat i) ++ hexd).
    change (str "0") with (repeat "0"%char 1).
    rewrite pad_loop_zeros, Nat.mul_1_l, map_app, map_repeat.
    repeat split.
    + rewrite length_app, repeat_length. lia.
    + apply Forall_app. split; [|assumption].
      apply Forall_forall. intros d Hd. apply repeat_spec in Hd. lia.
    + rewrite digits_value_zeros. exact Hval.
  - lia.
Qed.

(** Rendering a parsed group of [w] hexadecimal digits gives the group
    back, in lower case. *)
Lemma aligner_hex_group g w :
  all_digits 16 g -> List.length g = w -> (1 <= w)%nat ->
  _getIntAligner 16 (Num (digits_value 16 (vals g))) (Z.of_nat w)
  = toLowerCase g.
Proof.
  intros Hg Hlen Hw.
  pose proof (vals_range 16 g Hg) as Hr.
  pose proof (digits_value_bound 16 ltac:(lia) (vals g) Hr) as Hb.
  rewrite vals_length, Hlen in Hb.
  destruct (aligner_digits 16 _ w ltac:(lia) Hw Hb) as (ds & -> & Hl & Hd & Hv).
  assert (ds = vals g) as ->.
  { apply (digits_value_inj 16); try assumption; try lia.
    rewrite vals_length. lia. }
  unfold toLowerCase, vals. rewrite map_map.
  apply map_ext_in. intros c Hc.
  unfold all_digits in Hg. rewrite Forall_forall in Hg. specialize (Hg c Hc).
  pose proof (hex_digit_lower c) as P. rewrite Hg in P. simpl in P.
  now apply Ascii.eqb_eq in P.
Qed.

(** Parsing a rendered value gives the value back. *)
Lemma parseInt_aligner v w :
  (1 <= w)%nat -> 0 <= v < 16 ^ Z.of_nat w ->
  all_digits 16 (_getIntAligner 16 (Num v) (Z.of_nat w))
  /\ List.length (_getIntAligner 16 (Num v) (Z.of_nat w)) = w
  /\ parseInt (_getIntAligner 16 (Num v) (Z.of_nat w)) (Some 16) = Num v.
Proof.
  intros Hw Hv.
  destruct (aligner_digits 16 v w ltac:(lia) Hw Hv) as (ds & -> & Hl & Hd & Hval).
  assert (Ha : all_digits 16 (map digit_char ds))
    by (apply all_digits_chars; [lia|assumption]).
  split; [exact Ha|]. split; [now rewrite length_map|].
  rewrite parseInt_hex.
  - rewrite vals_chars; [now rewrite Hval|].
    eapply Forall_impl; [|exact Hd]. simpl. intros d. lia.
  - exact Ha.
  - destruct ds; [simpl in Hl; lia|discriminate].
Qed.

End Aligner.

(** ** The initializer *)

Section Init.

Lemma or_zero_num z : or_zero (Some (Num z)) = Num z.
Proof. simpl. destruct (Z.eqb_spec z 0) as [->|_]; reflexivity. Qed.

Lemma or_zero_is_num a : exists z, or_zero a = Num z.
Proof.
  destruct a as [[z|]|]; simpl; [|now exists 0|now exists 0].
  destruct (z =? 0); eexists; reflexivity.
Qed.

(** [parseInt(arguments[i] || 0)] stores the argument itself. *)
Lemma store a : parseInt (ToString (or_zero a)) None = or_zero a.
Proof.
  destruct (or_zero_is_num a) as [z ->]. apply parseInt_ToString.
Qed.

Lemma init_eq args :
  _init args
  = let ints := stored args in
    let bits :=
      map (fun i => _getIntAligner 2 (nth i ints NaN) (nth i sizes 0)) (seq 0 6) in
    let hexs :=
      map (fun i => _getIntAligner 16 (nth i ints NaN) (nth i sizes 0 / 4))
          (seq 0 6) in
    {| intFields := ints;
       bitFields := bits;
       hexFields := hexs;
       version := band (Num (sar (nth 2 ints NaN) (Num 12))) (Num 15);
       bitString := List.concat bits;
       hexString := nth 0 hexs [] ++ str "-" ++ nth 1 hexs [] ++ str "-"
                    ++ nth 2 hexs [] ++ str "-" ++ nth 3 hexs []
                    ++ nth 4 hexs [] ++ str "-" ++ nth 5 hexs [] |}.
Proof.
  assert (E : map (fun i => parseInt (ToString (or_zero (nth_error args i))) None)
                  (seq 0 (List.length sizes)) = stored args).
  { unfold stored. apply map_ext. intros i. apply store. }
  unfold _init. cbv zeta. rewrite E. reflexivity.
Qed.

Lemma init_intFields args : intFields (_init args) = stored args.
Proof. rewrite init_eq. reflexivity. Qed.

Lemma init_version args :
  version (_init args)
  = band (Num (sar (nth 2 (stored args) NaN) (Num 12))) (Num 15).
Proof. rewrite init_eq. reflexivity. Qed.

Lemma stored_six x0 x1 x2 x3 x4 x5 :
  stored [x0; x1; x2; x3; x4; x5]
  = [or_zero (Some x0); or_zero (Some x1); or_zero (Some x2);
     or_zero (Some x3); or_zero (Some x4); or_zero (Some x5)].
Proof. reflexivity. Qed.

Lemma stored_nums a b c d e f :
  stored [Num a; Num b; Num c; Num d; Num e; Num f]
  = [Num a; Num b; Num c; Num d; Num e; Num f].
Proof. rewrite stored_six. now rewrite !or_zero_num. Qed.

Lemma init_hexString a b c d e f :
  hexString (_init [Num a; Num b; Num c; Num d; Num e; Num f])
  = _getIntAligner 16 (Num a) 8 ++ str "-"
    ++ _getIntAligner 16 (Num b) 4 ++ str "-"
    ++ _getIntAligner 16 (Num c) 4 ++ str "-"
    ++ _getIntAligner 16 (Num d) 2 ++ _getIntAligner 16 (Num e) 2 ++ str "-"
    ++ _getIntAligner 16 (Num f) 12.
Proof. rewrite init_eq, stored_nums. reflexivity. Qed.

(** The version nibble of a 16-bit [timeHiAndVersion]. *)
Lemma version_nibble t :
  0 <= t < 2 ^ 31 -> band (Num (sar (Num t) (Num 12))) (Num 15) = (t / 2 ^ 12) mod 2 ^ 4.
Proof.
  intros Ht. rewrite sar_small by lia.
  change 15 with (Z.ones 4). apply band_low. lia.
Qed.

End Init.

(** ** The pattern of the parser *)

Section Pattern.

Lemma hex_group_some n : forall s g rest,
  hex_group n s = Some (g, rest) ->
  s = g ++ rest /\ List.length g = n /\ all_digits 16 g.
Proof.
  induction n as [|n IH]; intros s g rest H; simpl in H.
  - injection H as <- <-. repeat split. constructor.
  - destruct s as [|c t]; [discriminate|].
    destruct (is_hex_digit c) eqn:Ec; [|discriminate].
    destruct (hex_group n t) as [[g' rest']|] eqn:E; [|discriminate].
    injection H as <- <-.
    destruct (IH _ _ _ E) as (-> & Hl & Ha).
    repeat split; simpl; [now rewrite Hl|].
    constructor; [now rewrite <- is_hex_digit_16|exact Ha].
Qed.

Lemma hex_group_app n : forall g rest,
  List.length g = n -> all_digits 16 g -> hex_group n (g ++ rest) = Some (g, rest).
Proof.
  induction n as [|n IH]; intros g rest Hl Ha.
  - destruct g; [reflexivity|discriminate].
  - destruct Ha as [|c t Hc Ht]; [discriminate|].
    simpl. rewrite is_hex_digit_16, Hc.
    rewrite IH; [reflexivity| |exact Ht]. simpl in Hl. lia.
Qed.

Lemma hyphen_some s t : hyphen s = Some t -> s = "-"%char :: t.
Proof.
  destruct s as [|c s]; simpl; [discriminate|].
  destruct (Ascii.eqb_spec c "-") as [->|]; [|discriminate].
  now intros [= ->].
Qed.

Lemma hyphen_str t : hyphen (str "-" ++ t) = Some t.
Proof. reflexivity. Qed.

Lemma exec_pattern_some s r :
  exec_pattern s = Some r ->
  exists g1 g2 g3 g4 g5 g6,
    r = [g1; g2; g3; g4; g5; g6] /\ matched s g1 g2 g3 g4 g5 g6.
Proof.
  unfold exec_pattern. intros H.
  destruct (hex_group 8 s) as [[g1 s1]|] eqn:E1; [|discriminate].
  destruct (hyphen s1) as [s2|] eqn:H1; [|discriminate].
  destruct (hex_group 4 s2) as [[g2 s3]|] eqn:E2; [|discriminate].
  destruct (hyphen s3) as [s4|] eqn:H2; [|discriminate].
  destruct (hex_group 4 s4) as [[g3 s5]|] eqn:E3; [|discriminate].
  destruct (hyphen s5) as [s6|] eqn:H3; [|discriminate].
  destruct (hex_group 2 s6) as [[g4 s7]|] eqn:E4; [|discriminate].
  destruct (hex_group 2 s7) as [[g5 s8]|] eqn:E5; [|discriminate].
  destruct (hyphen s8) as [s9|] eqn:H4; [|discriminate].
  destruct (hex_group 12 s9) as [[g6 s10]|] eqn:E6; [|discriminate].
  destruct s10; [|discriminate]. injection H as <-.
  apply hex_group_some in E1, E2, E3, E4, E5, E6.
  apply hyphen_some in H1, H2, H3, H4.
  destruct E1 as (-> & L1 & A1), E2 as (-> & L2 & A2), E3 as (-> & L3 & A3),
    E4 as (-> & L4 & A4), E5 as (-> & L5 & A5), E6 as (-> & L6 & A6).
  subst s1 s3 s5 s8. rewrite app_nil_r.
  exists g1, g2, g3, g4, g5, g6. split; [reflexivity|].
  unfold matched. repeat split; assumption.
Qed.

Lemma exec_pattern_matched s g1 g2 g3 g4 g5 g6 :
  matched s g1 g2 g3 g4 g5 g6 ->
  exec_pattern s = Some [g1; g2; g3; g4; g5; g6].
Proof.
  intros (-> & (L1 & A1) & (L2 & A2) & (L3 & A3) & (L4 & A4) & (L5 & A5)
          & (L6 & A6)).
  unfold exec_pattern.
  rewrite (hex_group_app 8 g1 _ L1 A1). cbv beta iota. rewrite hyphen_str.
  rewrite (hex_group_app 4 g2 _ L2 A2). cbv beta iota. rewrite hyphen_str.
  rewrite (hex_group_app 4 g3 _ L3 A3). cbv beta iota. rewrite hyphen_str.
  rewrite (hex_group_app 2 g4 _ L4 A4). cbv beta iota.
  rewrite (hex_group_app 2 g5 _ L5 A5). cbv beta iota. rewrite hyphen_str.
  pose proof (hex_group_app 12 g6 [] L6 A6) as E6.
  rewrite app_nil_r in E6. rewrite E6. reflexivity.
Qed.

Lemma hex_group_of_digits n g :
  hex_group_of n g <-> List.length g = n /\ all_digits 16 g.
Proof.
  unfold hex_group_of, all_digits. rewrite !Forall_forall.
  split; intros [Hl H]; (split; [exact Hl|]); intros c Hc.
  - rewrite <- is_hex_digit_16. apply hex_digit_dec. now apply H.
  - apply hex_digit_dec. rewrite is_hex_digit_16. now apply H.
Qed.

Lemma canonical_matched s g1 g2 g3 g4 g5 g6 :
  canonical_groups s g1 g2 g3 g4 g5 g6 <-> matched s g1 g2 g3 g4 g5 g6.
Proof.
  unfold canonical_groups, matched. rewrite !hex_group_of_digits. tauto.
Qed.

End Pattern.

(** ** The parser *)

Section Parser.

Lemma hex_value_fold g : all_digits 16 g -> forall a,
  fold_left (fun a c => 16 * a + hex_digit_value c) g a
  = a * 16 ^ Z.of_nat (List.length g) + digits_value 16 (vals g).
Proof.
  induction 1 as [|c t Hc _ IH]; intros a; cbn [fold_left].
  - simpl. lia.
  - rewrite IH. cbn [vals map digits_value]. fold (vals t).
    pose proof (hex_digit_value_val c) as P. rewrite Hc in P. simpl in P.
    apply Z.eqb_eq in P. rewrite <- P, vals_length.
    simpl List.length. rewrite Nat2Z.inj_succ, Z.pow_succ_r by lia. ring.
Qed.

(** parseInt in radix 16 is the hexadecimal decoding of a group. *)
Lemma parseInt_hex_value g :
  all_digits 16 g -> g <> [] -> parseInt g (Some 16) = Num (hex_value g).
Proof.
  intros Ha Hne. rewrite parseInt_hex by assumption.
  unfold hex_value. rewrite hex_value_fold by assumption. f_equal; lia.
Qed.

Lemma nonempty_of_length {A} (l : list A) n :
  List.length l = S n -> l <> [].
Proof. destruct l; [discriminate|discriminate]. Qed.

Lemma parse_matched s g1 g2 g3 g4 g5 g6 :
  matched s g1 g2 g3 g4 g5 g6 ->
  parse s = Some (_init [Num (hex_value g1); Num (hex_value g2);
                         Num (hex_value g3); Num (hex_value g4);
                         Num (hex_value g5); Num (hex_value g6)]).
Proof.
  intros M. unfold parse. rewrite (exec_pattern_matched _ _ _ _ _ _ _ M).
  destruct M as (_ & (L1 & A1) & (L2 & A2) & (L3 & A3) & (L4 & A4)
                 & (L5 & A5) & (L6 & A6)).
  cbn [map].
  rewrite !parseInt_hex_value
    by (assumption || (eapply nonempty_of_length; eassumption)).
  reflexivity.
Qed.

Lemma parse_some s u :
  parse s = Some u ->
  exists g1 g2 g3 g4 g5 g6,
    matched s g1 g2 g3 g4 g5 g6
    /\ u = _init [Num (hex_value g1); Num (hex_value g2); Num (hex_value g3);
                  Num (hex_value g4); Num (hex_value g5); Num (hex_value g6)].
Proof.
  intros H. unfold parse in H.
  destruct (exec_pattern s) as [r|] eqn:E; [|discriminate].
  destruct (exec_pattern_some s r E) as (g1 & g2 & g3 & g4 & g5 & g6 & -> & M).
  exists g1, g2, g3, g4, g5, g6. split; [exact M|].
  pose proof (parse_matched _ _ _ _ _ _ _ M) as P.
  unfold parse in P. rewrite E in P. congruence.
Qed.

Lemma parse_iff_canonical s : (exists u, parse s = Some u) <-> canonical s.
Proof.
  split.
  - intros [u H]. destruct (parse_some s u H) as (g1 & g2 & g3 & g4 & g5 & g6 & M & _).
    exists g1, g2, g3, g4, g5, g6. now apply canonical_matched.
  - intros (g1 & g2 & g3 & g4 & g5 & g6 & C).
    apply canonical_matched in C. eexists. apply (parse_matched _ _ _ _ _ _ _ C).
Qed.

Lemma hex_value_digits g :
  all_digits 16 g -> hex_value g = digits_value 16 (vals g).
Proof.
  intros Ha. unfold hex_value. rewrite hex_value_fold by assumption. lia.
Qed.

Lemma toLowerCase_app s t : toLowerCase (s ++ t) = toLowerCase s ++ toLowerCase t.
Proof. apply map_app. Qed.

(** The rendering of a parsed string is the string in lower case. *)
Lemma rendered_matched s g1 g2 g3 g4 g5 g6 :
  matched s g1 g2 g3 g4 g5 g6 ->
  hexString (_init [Num (hex_value g1); Num (hex_value g2); Num (hex_value g3);
                    Num (hex_value g4); Num (hex_value g5); Num (hex_value g6)])
  = toLowerCase s.
Proof.
  intros (-> & (L1 & A1) & (L2 & A2) & (L3 & A3) & (L4 & A4) & (L5 & A5)
          & (L6 & A6)).
  rewrite init_hexString.
  rewrite !hex_value_digits by assumption.
  pose proof (aligner_hex_group g1 8 A1 L1 ltac:(lia)) as P1.
  pose proof (aligner_hex_group g2 4 A2 L2 ltac:(lia)) as P2.
  pose proof (aligner_hex_group g3 4 A3 L3 ltac:(lia)) as P3.
  pose proof (aligner_hex_group g4 2 A4 L4 ltac:(lia)) as P4.
  pose proof (aligner_hex_group g5 2 A5 L5 ltac:(lia)) as P5.
  pose proof (aligner_hex_group g6 12 A6 L6 ltac:(lia)) as P6.
  change (Z.of_nat 8) with 8 in P1. change (Z.of_nat 4) with 4 in P2, P3.
  change (Z.of_nat 2) with 2 in P4, P5. change (Z.of_nat 12) with 12 in P6.
  rewrite P1, P2, P3, P4, P5, P6.
  rewrite !toLowerCase_app. reflexivity.
Qed.

End Parser.

(** C3: [parse] returns a UUID exactly for the strings of the canonical
    pattern and null for every other string; the six fields are the
    hexadecimal values of the groups, the fourth hyphen-group giving two
    fields; the example of the specification parses to its fields and
    renders back, and the malformed examples give null. *)
Theorem parse_canonical (s g1 g2 g3 g4 g5 g6 : jsstring) :
  ((exists u, parse s = Some u) <-> canonical s)
  /\ (parse s = None <-> ~ canonical s)
  /\ (canonical_groups s g1 g2 g3 g4 g5 g6 ->
      exists u, parse s = Some u
                /\ intFields u = [Num (hex_value g1); Num (hex_value g2);
                                  Num (hex_value g3); Num (hex_value g4);
                                  Num (hex_value g5); Num (hex_value g6)])
  /\ (exists u, parse (str "12345678-1234-5678-9abc-123456789012") = Some u
                /\ intFields u = [Num 0x12345678; Num 0x1234; Num 0x5678;
                                  Num 0x9a; Num 0xbc; Num 0x123456789012]
                /\ version u = 5
                /\ toString u = str "12345678-1234-5678-9abc-123456789012")
  /\ parse (str "not-a-uuid") = None
  /\ parse (str "") = None
  /\ parse (str "1234567-1234-5678-9abc-123456789012") = None.
Proof.
  split; [apply parse_iff_canonical|].
  split.
  { rewrite <- parse_iff_canonical. destruct (parse s) as [u|].
    - split; [discriminate|]. intros H. exfalso. apply H. now exists u.
    - split; [|reflexivity]. intros _ [u H]. discriminate. }
  split.
  { intros C. apply canonical_matched in C. eexists. split.
    - apply (parse_matched _ _ _ _ _ _ _ C).
    - rewrite init_intFields. apply stored_nums. }
  split.
  { eexists. split; [vm_compute; reflexivity|].
    repeat split; vm_compute; reflexivity. }
  repeat split; vm_compute; reflexivity.
Qed.

(** C10: for every string that the parser accepts, upper-case digits
    included, the rendering of the parsed UUID is the string in lower
    case. *)
Theorem parse_toString_lowercase (s : jsstring) (u : UUID) :
  parse s = Some u -> toString u = toLowerCase s.
Proof.
  intros H. destruct (parse_some s u H) as (g1 & g2 & g3 & g4 & g5 & g6 & M & ->).
  unfold toString. apply rendered_matched. exact M.
Qed.

(** ** The version 4 generator *)

Section GenV4.

Lemma rand_fits x s :
  fair s -> 0 <= x <= 53 ->
  exists n, fst (_getRandomInt x s) = Num n /\ 0 <= n < 2 ^ x
            /\ fair (snd (_getRandomInt x s)).
Proof.
  intros Hs Hx. destruct (Z_le_gt_dec x 30) as [Hlo|Hhi].
  - destruct (getRandomInt_low x s Hs ltac:(lia)) as [He Hr].
    rewrite He. eexists. split; [reflexivity|]. split; [exact Hr|].
    simpl. intros n. apply Hs.
  - destruct (getRandomInt_high x s Hs ltac:(lia)) as [He Hr].
    rewrite He. eexists. split; [reflexivity|]. split; [exact Hr|].
    simpl. intros n. apply Hs.
Qed.

(** The arguments that [genV4] passes to the initializer. *)
Lemma genV4_fields s :
  fair s ->
  exists a b c d e f,
    fst (genV4 s)
    = _init [Num a; Num b; Num (16384 + c); Num (128 + d); Num e; Num f]
    /\ 0 <= a < 2 ^ 32 /\ 0 <= b < 2 ^ 16 /\ 0 <= c < 2 ^ 12
    /\ 0 <= d < 2 ^ 6 /\ 0 <= e < 2 ^ 8 /\ 0 <= f < 2 ^ 48.
Proof.
  intros Hs. unfold genV4, bind, ret. cbv zeta.
  destruct (rand_fits 32 s Hs ltac:(lia)) as (a & Ea & Ha & S1).
  set (s1 := snd (_getRandomInt 32 s)) in *.
  destruct (rand_fits 16 s1 S1 ltac:(lia)) as (b & Eb & Hb & S2).
  set (s2 := snd (_getRandomInt 16 s1)) in *.
  destruct (rand_fits 12 s2 S2 ltac:(lia)) as (c & Ec & Hc & S3).
  set (s3 := snd (_getRandomInt 12 s2)) in *.
  destruct (rand_fits 6 s3 S3 ltac:(lia)) as (d & Ed & Hd & S4).
  set (s4 := snd (_getRandomInt 6 s3)) in *.
  destruct (rand_fits 8 s4 S4 ltac:(lia)) as (e & Ee & He & S5).
  set (s5 := snd (_getRandomInt 8 s4)) in *.
  destruct (rand_fits 48 s5 S5 ltac:(lia)) as (f & Ef & Hf & _).
  exists a, b, c, d, e, f.
  rewrite Ea, Eb, Ec, Ed, Ee, Ef.
  change 16384 with (2 ^ 14) at 1. change 128 with (2 ^ 7) at 1.
  rewrite (bor_flag_l c 14), (bor_flag_l d 7).
  - simpl fst. repeat split; try lia; reflexivity.
  - lia.
  - assert (2 ^ 6 < 2 ^ 7) by (apply Z.pow_lt_mono_r; lia). lia.
  - lia.
  - assert (2 ^ 12 < 2 ^ 14) by (apply Z.pow_lt_mono_r; lia). lia.
Qed.

End GenV4.

(** ** Rendering and parsing back *)

Section RoundTrip.

Lemma equals_init a b c d e f :
  equals (_init [Num a; Num b; Num c; Num d; Num e; Num f])
         (Some (_init [Num a; Num b; Num c; Num d; Num e; Num f])) = true.
Proof.
  unfold equals. rewrite init_intFields, stored_nums. simpl.
  now rewrite !Z.eqb_refl.
Qed.

Lemma hex_value_aligner v w :
  (1 <= w)%nat -> 0 <= v < 16 ^ Z.of_nat w ->
  hex_value (_getIntAligner 16 (Num v) (Z.of_nat w)) = v.
Proof.
  intros Hw Hv. destruct (parseInt_aligner v w Hw Hv) as (Ha & Hl & Hp).
  rewrite parseInt_hex_value in Hp.
  - now injection Hp.
  - exact Ha.
  - destruct w; [lia|]. eapply nonempty_of_length; eassumption.
Qed.

(** A UUID whose fields fit their widths is parsed back from its
    rendering. *)
Lemma roundtrip_fields a b c d e f :
  0 <= a < 2 ^ 32 -> 0 <= b < 2 ^ 16 -> 0 <= c < 2 ^ 16 ->
  0 <= d < 2 ^ 8 -> 0 <= e < 2 ^ 8 -> 0 <= f < 2 ^ 48 ->
  let u := _init [Num a; Num b; Num c; Num d; Num e; Num f] in
  parse (toString u) = Some u /\ parses_back u.
Proof.
  intros Ha Hb Hc Hd He Hf u.
  assert (P : parse (toString u) = Some u).
  { unfold u, toString. rewrite init_hexString.
    destruct (parseInt_aligner a 8 ltac:(lia) Ha) as (A1 & L1 & _).
    destruct (parseInt_aligner b 4 ltac:(lia) Hb) as (A2 & L2 & _).
    destruct (parseInt_aligner c 4 ltac:(lia) Hc) as (A3 & L3 & _).
    destruct (parseInt_aligner d 2 ltac:(lia) Hd) as (A4 & L4 & _).
    destruct (parseInt_aligner e 2 ltac:(lia) He) as (A5 & L5 & _).
    destruct (parseInt_aligner f 12 ltac:(lia) Hf) as (A6 & L6 & _).
    pose proof (hex_value_aligner a 8 ltac:(lia) Ha) as V1.
    pose proof (hex_value_aligner b 4 ltac:(lia) Hb) as V2.
    pose proof (hex_value_aligner c 4 ltac:(lia) Hc) as V3.
    pose proof (hex_value_aligner d 2 ltac:(lia) Hd) as V4.
    pose proof (hex_value_aligner e 2 ltac:(lia) He) as V5.
    pose proof (hex_value_aligner f 12 ltac:(lia) Hf) as V6.
    change (Z.of_nat 8) with 8 in *. change (Z.of_nat 4) with 4 in *.
    change (Z.of_nat 2) with 2 in *. change (Z.of_nat 12) with 12 in *.
    erewrite parse_matched.
    - rewrite V1, V2, V3, V4, V5, V6. reflexivity.
    - unfold matched. repeat split; assumption. }
  split; [exact P|]. exists u. split; [exact P|]. apply equals_init.
Qed.

Lemma fits_num z w : fits (Num z) w <-> 0 <= z < 2 ^ w.
Proof.
  unfold fits. split.
  - intros (z' & [= <-] & H). exact H.
  - intros H. now exists z.
Qed.

Lemma width_invariant_init a b c d e f :
  width_invariant (_init [Num a; Num b; Num c; Num d; Num e; Num f])
  <-> (0 <= a < 2 ^ 32 /\ 0 <= b < 2 ^ 16 /\ 0 <= c < 2 ^ 16
       /\ 0 <= d < 2 ^ 8 /\ 0 <= e < 2 ^ 8 /\ 0 <= f < 2 ^ 48).
Proof.
  unfold width_invariant, field. rewrite init_intFields, stored_nums.
  cbn [nth]. rewrite !fits_num. reflexivity.
Qed.

Lemma hex_value_bound g n :
  all_digits 16 g -> List.length g = n -> 0 <= hex_value g < 16 ^ Z.of_nat n.
Proof.
  intros Ha Hl. rewrite hex_value_digits by assumption.
  pose proof (digits_value_bound 16 ltac:(lia) (vals g) (vals_range 16 g Ha)) as B.
  now rewrite vals_length, Hl in B.
Qed.

Lemma width_invariant_parse s u : parse s = Some u -> width_invariant u.
Proof.
  intros H. destruct (parse_some s u H) as (g1 & g2 & g3 & g4 & g5 & g6 & M & ->).
  destruct M as (_ & (L1 & A1) & (L2 & A2) & (L3 & A3) & (L4 & A4)
                 & (L5 & A5) & (L6 & A6)).
  apply width_invariant_init.
  pose proof (hex_value_bound g1 8 A1 L1). pose proof (hex_value_bound g2 4 A2 L2).
  pose proof (hex_value_bound g3 4 A3 L3). pose proof (hex_value_bound g4 2 A4 L4).
  pose proof (hex_value_bound g5 2 A5 L5). pose proof (hex_value_bound g6 12 A6 L6).
  repeat split; assumption || lia.
Qed.

Lemma width_invariant_genV4 s : fair s -> width_invariant (fst (genV4 s)).
Proof.
  intros Hs.
  destruct (genV4_fields s Hs) as (a & b & c & d & e & f & -> & Ha & Hb & Hc
                                   & Hd & He & Hf).
  apply width_invariant_init.
  change (2 ^ 12) with 4096 in Hc. change (2 ^ 6) with 64 in Hd.
  change (2 ^ 16) with 65536. change (2 ^ 8) with 256 in *.
  repeat split; assumption || lia.
Qed.

(** Every version 4 UUID is parsed back from its rendering. *)
Lemma genV4_roundtrip s :
  fair s ->
  parse (toString (fst (genV4 s))) = Some (fst (genV4 s))
  /\ parses_back (fst (genV4 s)).
Proof.
  intros Hs.
  destruct (genV4_fields s Hs) as (a & b & c & d & e & f & -> & Ha & Hb & Hc
                                   & Hd & He & Hf).
  change (2 ^ 12) with 4096 in Hc. change (2 ^ 6) with 64 in Hd.
  apply roundtrip_fields; try assumption.
  - change (2 ^ 16) with 65536. lia.
  - change (2 ^ 8) with 256. lia.
Qed.

End RoundTrip.

(** ** The version 1 generator *)

Section GenV1.

Lemma strict_eq_true a b : strict_eq a b = true -> a = b.
Proof.
  destruct a as [x|], b as [y|]; simpl; try discriminate.
  intros H. apply Z.eqb_eq in H. now subst.
Qed.

(** After the update the stored timestamp is the clock reading, and the
    node is untouched. *)
Lemma advance_timestamp now st r : timestamp (fst (advance now st r)) = Num now.
Proof.
  unfold advance. destruct (strict_eq (Num now) (timestamp st)) eqn:E; simpl.
  - apply strict_eq_true in E. unfold bind, Math_random, ret. cbv zeta. simpl.
    destruct (_ && _); simpl; now rewrite E.
  - reflexivity.
Qed.

Lemma advance_node now st r : node (fst (advance now st r)) = node st.
Proof.
  unfold advance. destruct (strict_eq (Num now) (timestamp st)).
  - unfold bind, Math_random, ret. cbv zeta. simpl. destruct (_ && _); reflexivity.
  - destruct (nlt (Num now) (timestamp st)); reflexivity.
Qed.

(** A clock reading earlier than the stored timestamp advances the
    sequence and draws nothing. *)
Lemma advance_back now t st r :
  timestamp st = Num t -> now < t ->
  advance now st r
  = ({| timestamp := Num now; sequence := nadd (sequence st) (Num 1);
        node := node st; tick := Num 0 |}, r).
Proof.
  intros Et Hlt. unfold advance. rewrite Et. simpl.
  destruct (Z.eqb_spec now t); [lia|]. simpl.
  destruct (Z.ltb_spec now t); [|lia]. reflexivity.
Qed.

Lemma seq14_range n : 0 <= band n (Num 16383) < 2 ^ 14.
Proof.
  change 16383 with (Z.ones 14). rewrite band_ones by lia.
  apply Z.mod_pos_bound. lia.
Qed.

(** The UUID and the state that a call of [genV1] gives. *)
Lemma genV1_result now st r :
  let st1 := fst (advance now st r) in
  let tf := _getTimeFieldValues (Num now) in
  let m := band (sequence st1) (Num 16383) in
  fst (genV1 now st r)
  = (_init [nadd (Num (TF.low tf)) (tick st1); Num (TF.mid tf);
            Num (TF.hi tf mod 2 ^ 12 + 4096); Num (m / 2 ^ 8 + 128);
            Num (m mod 2 ^ 8); node st],
     {| timestamp := Num now; sequence := Num m; node := node st;
        tick := tick st1 |}).
Proof.
  intros st1 tf m. unfold genV1, bind, ret. cbv zeta. cbn [fst snd].
  fold st1. rewrite (advance_timestamp now st r : timestamp st1 = Num now).
  rewrite (advance_node now st r : node st1 = node st).
  fold tf. cbn [sequence]. fold m.
  pose proof (seq14_range (sequence st1)) as Hm. fold m in Hm.
  assert (Hhi : bor (Num (band (Num (TF.hi tf)) (Num 4095))) (Num 4096)
                = TF.hi tf mod 2 ^ 12 + 4096).
  { change 4095 with (Z.ones 12). rewrite band_low by lia.
    change 4096 with (2 ^ 12). apply bor_flag; [lia|].
    apply Z.mod_pos_bound. lia. }
  assert (Hcs : bor (Num (shr (Num m) (Num 8))) (Num 128) = m / 2 ^ 8 + 128).
  { change (2 ^ 14) with 16384 in Hm.
    rewrite shr_small by (change (2 ^ 32) with 4294967296; lia).
    change 128 with (2 ^ 7). apply bor_flag; [lia|].
    change (2 ^ 8) with 256. change (2 ^ 7) with 128.
    split; [apply Z.div_pos; lia|apply Z.div_lt_upper_bound; lia]. }
  assert (Hcl : band (Num m) (Num 255) = m mod 2 ^ 8).
  { change 255 with (Z.ones 8). apply band_low. lia. }
  rewrite Hhi, Hcs, Hcl. reflexivity.
Qed.

End GenV1.

Section Tags.

Lemma shl_small a k :
  0 <= k < 32 -> 0 <= a * 2 ^ k < 2 ^ 31 -> 0 <= a < 2 ^ 31 ->
  shl (Num a) (Num k) = a * 2 ^ k.
Proof.
  intros Hk Hp Ha. unfold shl. rewrite count_small by lia.
  simpl ToInt32. rewrite (to_int32_small a) by lia.
  rewrite Z.shiftl_mul_pow2 by lia. apply to_int32_small. lia.
Qed.

Lemma land_high_low h l k : 0 <= k -> 0 <= l < 2 ^ k -> Z.land (h * 2 ^ k) l = 0.
Proof.
  intros Hk Hl. apply Z.bits_inj'. intros n Hn.
  rewrite Z.land_spec, Z.bits_0.
  destruct (Z_lt_le_dec n k) as [Hlo|Hhi].
  - rewrite Z.mul_pow2_bits_low by lia. reflexivity.
  - destruct (Z.eq_dec l 0) as [->|Hnz].
    + rewrite Z.bits_0. apply andb_false_r.
    + rewrite (Z.bits_above_log2 l n); [apply andb_false_r|lia|].
      apply Z.log2_lt_pow2; [lia|].
      apply Z.lt_le_trans with (2 ^ k); [lia|].
      apply Z.pow_le_mono_r; lia.
Qed.

(** Joining a high part and a low part that do not overlap. *)
Lemma bor_join h l k :
  0 <= k -> 0 <= l < 2 ^ k -> 0 <= h -> h * 2 ^ k + l < 2 ^ 31 ->
  bor (Num (h * 2 ^ k)) (Num l) = h * 2 ^ k + l.
Proof.
  intros Hk Hl Hh Hb. unfold bor. simpl ToInt32.
  assert (0 <= h * 2 ^ k) by (apply Z.mul_nonneg_nonneg; lia).
  rewrite (to_int32_small (h * 2 ^ k)), (to_int32_small l) by lia.
  rewrite <- Z.lxor_lor, <- Z.add_nocarry_lxor by (apply land_high_low; lia).
  apply to_int32_small. lia.
Qed.

(** The two high bits of [d + 0x80], for a 6-bit [d], are 10. *)
Lemma variant_bits d : 0 <= d < 64 -> band (Num (d + 128)) (Num 192) = 128.
Proof.
  intros Hd. rewrite <- (Z2Nat.id d) by lia.
  assert (Hn : (Z.to_nat d < 64)%nat) by lia.
  revert Hn. generalize (Z.to_nat d). intros n Hn.
  do 64 (destruct n as [|n]; [reflexivity|]). lia.
Qed.

(** The version nibble of [h + 0x1000 * v], for a 12-bit [h]. *)
Lemma version_of_tagged h v :
  0 <= h < 2 ^ 12 -> 0 <= v < 16 ->
  band (Num (sar (Num (h + 4096 * v)) (Num 12))) (Num 15) = v.
Proof.
  intros Hh Hv. change (2 ^ 12) with 4096 in Hh.
  rewrite version_nibble by (change (2 ^ 31) with 2147483648; lia).
  change (2 ^ 12) with 4096. change (2 ^ 4) with 16.
  rewrite Z.mul_comm, Z.div_add by lia.
  rewrite Z.div_small by lia. apply Z.mod_small. lia.
Qed.

(** The clock sequence read back from the two fields that hold it. *)
Lemma clock_sequence_init m x0 x1 x2 x5 :
  0 <= m < 2 ^ 14 ->
  clock_sequence (_init [x0; x1; x2; Num (m / 2 ^ 8 + 128); Num (m mod 2 ^ 8); x5])
  = m.
Proof.
  intros Hm. change (2 ^ 14) with 16384 in Hm.
  unfold clock_sequence, field. rewrite init_intFields, stored_six.
  cbn [nth]. rewrite !or_zero_num.
  set (q := m / 2 ^ 8). set (l := m mod 2 ^ 8).
  assert (Hq : 0 <= q < 64).
  { unfold q. change (2 ^ 8) with 256.
    split; [apply Z.div_pos; lia|apply Z.div_lt_upper_bound; lia]. }
  assert (Hl : 0 <= l < 256) by (apply Z.mod_pos_bound; reflexivity).
  assert (Hml : m = q * 2 ^ 8 + l).
  { unfold q, l. pose proof (Z.div_mod m (2 ^ 8) ltac:(discriminate)). lia. }
  change 63 with (Z.ones 6). rewrite band_low by lia.
  replace ((q + 128) mod 2 ^ 6) with q.
  2:{ replace (q + 128) with (q + 2 * 2 ^ 6) by reflexivity.
      rewrite Z.mod_add by discriminate. symmetry. apply Z.mod_small.
      change (2 ^ 6) with 64. lia. }
  assert (Hp : 0 <= q * 2 ^ 8 + l < 2 ^ 31).
  { rewrite <- Hml. change (2 ^ 31) with 2147483648. lia. }
  assert (Hp' : 0 <= q * 2 ^ 8 < 2 ^ 31).
  { change (2 ^ 8) with 256 in *. change (2 ^ 31) with 2147483648 in *. lia. }
  rewrite (shl_small q 8) by (try assumption; change (2 ^ 31) with 2147483648; lia).
  rewrite (bor_join q l 8) by (try assumption; change (2 ^ 8) with 256; lia).
  lia.
Qed.

End Tags.

(** C4: every version 4 UUID has version 4 and every version 1 UUID has
    version 1, for all fair draws, states and clock readings; the
    version is recomputed from [timeHiAndVersion] as
    [(timeHiAndVersion >> 12) & 0xF]. *)
Theorem version_tagging (s : Source) (now : Z) (st : UUIDState) (r : Source) :
  let u4 := fst (genV4 s) in
  let u1 := fst (fst (genV1 now st r)) in
  (fair s ->
   version u4 = 4
   /\ version u4 = band (Num (sar (field u4 2) (Num 12))) (Num 0xF))
  /\ version u1 = 1
  /\ version u1 = band (Num (sar (field u1 2) (Num 12))) (Num 0xF).
Proof.
  intros u4 u1. split; [intros Hs; split|split].
  - unfold u4. destruct (genV4_fields s Hs) as (a & b & c & d & e & f & -> & _ & _ & Hc & _).
    rewrite init_version, stored_nums. cbn [nth].
    replace (16384 + c) with (c + 4096 * 4) by lia.
    apply version_of_tagged; lia.
  - unfold u4, field. destruct (genV4_fields s Hs) as (a & b & c & d & e & f & -> & _).
    now rewrite init_version, init_intFields.
  - unfold u1. rewrite genV1_result. cbn [fst].
    rewrite init_version, stored_six. cbn [nth]. rewrite or_zero_num.
    match goal with |- context [Num (?h mod 2 ^ 12 + 4096)] =>
      replace (h mod 2 ^ 12 + 4096) with (h mod 2 ^ 12 + 4096 * 1) by lia;
      apply version_of_tagged; [apply Z.mod_pos_bound|]; lia
    end.
  - unfold u1, field. rewrite genV1_result. cbn [fst].
    now rewrite init_version, init_intFields.
Qed.

(** C5: for every UUID of either generator the field
    [clockSeqHiAndReserved] is an 8-bit value whose two high bits are
    10: [clockSeqHiAndReserved & 0xC0 = 0x80]. *)
Theorem variant_tagging (s : Source) (now : Z) (st : UUIDState) (r : Source) :
  (fair s ->
   exists z, field (fst (genV4 s)) 3 = Num z /\ 0 <= z < 2 ^ 8
             /\ band (Num z) (Num 0xC0) = 0x80)
  /\ (exists z, field (fst (fst (genV1 now st r))) 3 = Num z /\ 0 <= z < 2 ^ 8
                /\ band (Num z) (Num 0xC0) = 0x80).
Proof.
  split.
  - intros Hs.
    destruct (genV4_fields s Hs) as (a & b & c & d & e & f & -> & _ & _ & _ & Hd & _).
    change (2 ^ 6) with 64 in Hd.
    exists (128 + d). unfold field. rewrite init_intFields, stored_nums.
    cbn [nth]. split; [reflexivity|]. change (2 ^ 8) with 256.
    split; [lia|]. rewrite Z.add_comm. apply variant_bits. lia.
  - rewrite genV1_result. cbn [fst].
    set (m := band (sequence (fst (advance now st r))) (Num 16383)).
    pose proof (seq14_range (sequence (fst (advance now st r)))) as Hm.
    fold m in Hm. change (2 ^ 14) with 16384 in Hm.
    assert (Hq : 0 <= m / 2 ^ 8 < 64).
    { change (2 ^ 8) with 256.
      split; [apply Z.div_pos; lia|apply Z.div_lt_upper_bound; lia]. }
    exists (m / 2 ^ 8 + 128). unfold field. rewrite init_intFields, stored_six.
    cbn [nth]. rewrite or_zero_num. split; [reflexivity|].
    split; [change (2 ^ 8) with 256 in *; lia|]. apply variant_bits. lia.
Qed.

(** C7: when the second of two successive calls of [genV1] reads a
    clock earlier than the timestamp that the first one stored, the
    clock sequence of the second UUID is that of the first plus one
    modulo 2^14, hence another one. *)
Theorem sequence_after_regression
  (now1 now2 : Z) (st : UUIDState) (r1 r2 : Source) :
  now2 < now1 ->
  let first := fst (genV1 now1 st r1) in
  let second := fst (genV1 now2 (snd first) r2) in
  timestamp (snd first) = Num now1
  /\ clock_sequence (fst second) = (clock_sequence (fst first) + 1) mod 2 ^ 14
  /\ clock_sequence (fst second) <> clock_sequence (fst first).
Proof.
  intros Hlt first second.
  pose proof (genV1_result now1 st r1) as E1. cbv zeta in E1. fold first in E1.
  set (m1 := band (sequence (fst (advance now1 st r1))) (Num 16383)) in E1.
  pose proof (seq14_range (sequence (fst (advance now1 st r1)))) as Hm1.
  fold m1 in Hm1.
  pose proof (genV1_result now2 (snd first) r2) as E2. cbv zeta in E2.
  fold second in E2.
  rewrite (advance_back now2 now1) in E2
    by (first [exact Hlt | rewrite E1; reflexivity]).
  cbn [fst sequence] in E2.
  assert (Es : sequence (snd first) = Num m1) by now rewrite E1.
  rewrite Es in E2. cbn [nadd] in E2.
  change 16383 with (Z.ones 14) in E2. rewrite band_low in E2 by lia.
  assert (Hm2 : 0 <= (m1 + 1) mod 2 ^ 14 < 2 ^ 14)
    by (apply Z.mod_pos_bound; reflexivity).
  assert (C1 : clock_sequence (fst first) = m1).
  { rewrite E1. cbn [fst]. now apply clock_sequence_init. }
  assert (C2 : clock_sequence (fst second) = (m1 + 1) mod 2 ^ 14).
  { rewrite E2. cbn [fst]. now apply clock_sequence_init. }
  rewrite C1, C2. split; [now rewrite E1|]. split; [reflexivity|].
  change (2 ^ 14) with 16384 in *.
  destruct (Z.eq_dec m1 16383) as [->|Hne].
  - discriminate.
  - rewrite Z.mod_small by lia. lia.
Qed.

Section Node.

Lemma bor_1 a : 0 <= a < 256 -> bor (Num a) (Num 1) = 2 * (a / 2) + 1.
Proof.
  intros Ha. rewrite <- (Z2Nat.id a) by lia.
  assert (Hn : (Z.to_nat a < 256)%nat) by lia.
  revert Hn. generalize (Z.to_nat a). intros n Hn.
  do 256 (destruct n as [|n]; [reflexivity|]). lia.
Qed.

(** The node of the initial state: an odd first octet above 40 random
    bits. *)
Lemma state_node s :
  fair s ->
  exists a b, node (fst (_state s)) = Num ((2 * (a / 2) + 1) * 2 ^ 40 + b)
              /\ 0 <= a < 2 ^ 8 /\ 0 <= b < 2 ^ 40.
Proof.
  intros Hs. unfold _state, bind, ret. cbv zeta.
  destruct (rand_fits 14 s Hs ltac:(lia)) as (q & Eq & Hq & S1).
  set (s1 := snd (_getRandomInt 14 s)) in *.
  destruct (rand_fits 8 s1 S1 ltac:(lia)) as (a & Ea & Ha & S2).
  set (s2 := snd (_getRandomInt 8 s1)) in *.
  destruct (rand_fits 40 s2 S2 ltac:(lia)) as (b & Eb & Hb & _).
  exists a, b. cbn [fst node]. rewrite Ea, Eb.
  rewrite bor_1 by (change (2 ^ 8) with 256 in Ha; lia).
  split; [reflexivity|]. split; assumption.
Qed.

(** Every call of [genV1] stores the node of the state in the UUID and
    leaves it in the state. *)
Lemma generate_node nows : forall st r n,
  node st = Num n ->
  Forall (fun u => field u 5 = Num n) (fst (fst (generate nows st r)))
  /\ node (snd (fst (generate nows st r))) = Num n.
Proof.
  induction nows as [|now rest IH]; intros st r n Hn.
  - simpl. split; [constructor|exact Hn].
  - cbn [generate]. unfold bind, ret. cbv zeta. cbn [fst snd].
    pose proof (genV1_result now st r) as E. cbv zeta in E.
    assert (Hn' : node (snd (fst (genV1 now st r))) = Num n)
      by (rewrite E; exact Hn).
    destruct (IH (snd (fst (genV1 now st r))) (snd (genV1 now st r)) n Hn')
      as [IH1 IH2].
    split; [|exact IH2]. constructor; [|exact IH1].
    rewrite E. cbn [fst]. unfold field.
    rewrite init_intFields, stored_six. cbn [nth]. rewrite Hn.
    apply or_zero_num.
Qed.

End Node.

(** C9, amended: the node of the initial state is a 48-bit value whose
    bit 40, the lowest bit of its first octet, is 1 (bit 0 is a random
    bit), and it is the node field of every UUID that [genV1] returns in
    a run from that state. *)
Theorem node_multicast (s : Source) (nows : list Z) :
  fair s ->
  exists n,
    node (fst (_state s)) = Num n
    /\ 0 <= n < 2 ^ 48
    /\ (n / 2 ^ 40) mod 2 = 1
    /\ Z.testbit n 40 = true
    /\ Forall (fun u => field u 5 = Num n)
              (fst (fst (generate nows (fst (_state s)) (snd (_state s))))).
Proof.
  intros Hs. destruct (state_node s Hs) as (a & b & En & Ha & Hb).
  set (o := 2 * (a / 2) + 1) in *.
  assert (Ho : 1 <= o < 256).
  { unfold o. change (2 ^ 8) with 256 in Ha.
    assert (0 <= a / 2 < 128)
      by (split; [apply Z.div_pos; lia|apply Z.div_lt_upper_bound; lia]).
    lia. }
  assert (Hd : (o * 2 ^ 40 + b) / 2 ^ 40 = o).
  { rewrite Z.add_comm, Z.div_add by discriminate.
    rewrite Z.div_small by lia. lia. }
  assert (Hodd : o mod 2 = 1).
  { unfold o. rewrite Z.add_comm, Z.mul_comm, Z.mod_add by lia. reflexivity. }
  exists (o * 2 ^ 40 + b). split; [exact En|]. split; [|split; [|split]].
  - change (2 ^ 48) with (256 * 2 ^ 40).
    assert (0 < 2 ^ 40) by reflexivity. nia.
  - now rewrite Hd.
  - rewrite Z.testbit_odd, Z.shiftr_div_pow2, Hd by lia.
    rewrite Zodd_mod, Hodd. reflexivity.
  - apply generate_node. exact En.
Qed.

Lemma fair_zero : fair zero_source.
Proof. intros n. unfold zero_source. split; [apply Qle_refl|reflexivity]. Qed.

Lemma fair_half : fair half_source.
Proof. intros n. unfold half_source. split; [discriminate|reflexivity]. Qed.

(** C9 as stated fails: when the draws are all 0 the node is 2^40, an
    even number. *)
Lemma node_bit0_not_forced :
  ~ (forall s, fair s ->
       exists n, node (fst (_state s)) = Num n /\ 0 <= n < 2 ^ 48
                 /\ n mod 2 = 1).
Proof.
  intros H. destruct (H zero_source fair_zero) as (n & E & _ & Hodd).
  vm_compute in E. injection E as <-. vm_compute in Hodd. discriminate Hodd.
Qed.

(** ** The time fields *)

Section TimeFields.

(** A product that fits 53 significant bits is not rounded. *)
Lemma round53_exact p : 0 <= p < 2 ^ 53 -> round53 (16 * p) = 16 * p.
Proof.
  intros Hp. unfold round53. rewrite Z.abs_eq by lia.
  destruct (Z.leb_spec (Z.log2 (16 * p) - 52) 0) as [|Hk]; [reflexivity|].
  assert (Hpos : 0 < 16 * p).
  { destruct (Z.eq_dec p 0) as [->|]; [simpl in Hk; lia|lia]. }
  assert (Hlog : Z.log2 (16 * p) < 57).
  { apply Z.log2_lt_pow2; [lia|].
    change (2 ^ 57) with (16 * 2 ^ 53). lia. }
  set (k := Z.log2 (16 * p) - 52) in *.
  assert (Hk4 : 0 < k <= 4) by lia.
  assert (H2k : 0 < 2 ^ k) by (apply Z.pow_pos_nonneg; lia).
  assert (Hdiv : (16 * p) mod 2 ^ k = 0).
  { apply Z.mod_divide; [lia|]. exists (2 ^ (4 - k) * p).
    replace (2 ^ (4 - k) * p * 2 ^ k) with (2 ^ (4 - k) * 2 ^ k * p) by ring.
    rewrite <- Z.pow_add_r by lia. replace (4 - k + k) with 4 by lia.
    reflexivity. }
  rewrite Hdiv.
  assert (Hh : 0 < 2 ^ (k - 1)) by (apply Z.pow_pos_nonneg; lia).
  destruct (Z.ltb_spec 0 (2 ^ (k - 1))) as [_|]; [|lia].
  rewrite (Z.sgn_pos (16 * p)) by lia.
  pose proof (Z.div_mod (16 * p) (2 ^ k) ltac:(lia)) as Hdm.
  rewrite Hdiv in Hdm. lia.
Qed.

(** The low field is exact for every timestamp. *)
Lemma low_exact ts :
  nrem (band (Num ts) (Num 268435455) * 10000) 4294967296
  = (ts * 10000) mod 2 ^ 32.
Proof.
  change 268435455 with (Z.ones 28). rewrite band_low by lia.
  pose proof (Z.mod_pos_bound ts (2 ^ 28) ltac:(lia)) as Hr.
  unfold nrem. rewrite Z.rem_mod_nonneg by lia.
  change (2 ^ 32) with 4294967296. change (2 ^ 28) with 268435456 in *.
  pose proof (Z.div_mod ts 268435456 ltac:(lia)) as Hts.
  rewrite Hts at 2.
  replace ((268435456 * (ts / 268435456) + ts mod 268435456) * 10000)
    with (ts mod 268435456 * 10000 + (ts / 268435456 * 625) * 4294967296)
    by ring.
  now rewrite Z.mod_add by lia.
Qed.

Lemma split_mid x : (x mod 2 ^ 28) mod 2 ^ 16 = x mod 2 ^ 16.
Proof.
  change (2 ^ 28) with (2 ^ 16 * 2 ^ 12).
  rewrite Z.rem_mul_r by first [discriminate | reflexivity].
  rewrite (Z.mul_comm (2 ^ 16)), Z.mod_add by discriminate.
  apply Z.mod_mod. discriminate.
Qed.

Lemma split_hi x : (x mod 2 ^ 28) / 2 ^ 16 = (x / 2 ^ 16) mod 2 ^ 12.
Proof.
  change (2 ^ 28) with (2 ^ 16 * 2 ^ 12).
  rewrite Z.rem_mul_r by first [discriminate | reflexivity].
  rewrite (Z.mul_comm (2 ^ 16)), Z.div_add by discriminate.
  rewrite Z.div_small by (apply Z.mod_pos_bound; reflexivity).
  reflexivity.
Qed.

(** From the epoch of the format until [ts * 625] reaches 2^53 (in June
    2039) the three fields are the exact split of the count of
    100-nanosecond intervals. *)
Lemma getTimeFieldValues_exact t :
  0 <= t - Date_UTC 1582 9 15 ->
  (t - Date_UTC 1582 9 15) * 625 < 2 ^ 53 ->
  let tf := _getTimeFieldValues (Num t) in
  TF.low tf = intervals t mod 2 ^ 32
  /\ TF.mid tf = (intervals t / 2 ^ 32) mod 2 ^ 16
  /\ TF.hi tf = (intervals t / 2 ^ 48) mod 2 ^ 12.
Proof.
  intros Hts Hb tf. unfold tf, _getTimeFieldValues, intervals. cbn [nsub].
  set (ts := t - Date_UTC 1582 9 15) in *.
  cbn [TF.low TF.mid TF.hi].
  assert (Hs : scaled_ticks ts = ts * 10000 / 2 ^ 32).
  { unfold scaled_ticks.
    replace (ts * 10000) with (16 * (ts * 625)) by ring.
    rewrite round53_exact by lia.
    apply Z.quot_div_nonneg; [lia|reflexivity]. }
  rewrite Hs. set (x := ts * 10000 / 2 ^ 32).
  assert (Hm : band (Num x) (Num 268435455) = x mod 2 ^ 28).
  { change 268435455 with (Z.ones 28). apply band_low. lia. }
  rewrite Hm.
  pose proof (Z.mod_pos_bound x (2 ^ 28) ltac:(lia)) as Hr.
  split; [apply low_exact|]. split.
  - change 65535 with (Z.ones 16). rewrite band_low by lia. apply split_mid.
  - rewrite shr_small.
    + rewrite split_hi. unfold x. rewrite Z.div_div by first [discriminate | reflexivity].
      reflexivity.
    + lia.
    + change (2 ^ 28) with 268435456 in *. change (2 ^ 32) with 4294967296. lia.
Qed.

End TimeFields.

(** The time fields of a version 1 UUID, in the exact range: [timeLow]
    is the low 32 bits of the count plus the tick, [timeMid] the next 16
    bits and the low 12 bits of [timeHiAndVersion] the 12 bits above. *)
Lemma genV1_time_fields now st r k :
  0 <= now - Date_UTC 1582 9 15 ->
  (now - Date_UTC 1582 9 15) * 625 < 2 ^ 53 ->
  tick (snd (fst (genV1 now st r))) = Num k ->
  let u := fst (fst (genV1 now st r)) in
  field u 0 = Num (intervals now mod 2 ^ 32 + k)
  /\ field u 1 = Num ((intervals now / 2 ^ 32) mod 2 ^ 16)
  /\ exists h, field u 2 = Num h
               /\ h mod 2 ^ 12 = (intervals now / 2 ^ 48) mod 2 ^ 12.
Proof.
  intros H0 H1 Hk u. unfold u. clear u.
  rewrite genV1_result in *. cbn [fst snd tick] in *.
  destruct (getTimeFieldValues_exact now H0 H1) as (El & Em & Eh).
  unfold field. rewrite init_intFields, stored_six. cbn [nth].
  rewrite Hk. cbn [nadd]. rewrite !or_zero_num, El, Em, Eh.
  split; [reflexivity|]. split; [reflexivity|].
  eexists. split; [reflexivity|].
  change 4096 with (1 * 2 ^ 12). rewrite Z.mod_add by discriminate.
  rewrite !Z.mod_mod by discriminate. reflexivity.
Qed.

(** C6: at the clock reading 2039-06-21T16:15:07.631Z the rounding of
    the double product [(ts / 0x100000000) * 10000] carries into the
    integer part, and every version 1 UUID made at that instant has
    [timeMid] 139 where the exact split of the count of intervals has
    138. *)
Theorem time_fields_inexact (st : UUIDState) (r : Source) :
  field (fst (fst (genV1 inexact_instant st r))) 1 = Num 139
  /\ (intervals inexact_instant / 2 ^ 32) mod 2 ^ 16 = 138
  /\ (inexact_instant - Date_UTC 1582 9 15) * 625 >= 2 ^ 53.
Proof.
  split; [|split; vm_compute; [reflexivity|discriminate]].
  rewrite genV1_result. cbn [fst]. unfold field.
  rewrite init_intFields, stored_six. cbn [nth]. rewrite or_zero_num.
  f_equal.
Qed.

(** C1: in a run of seventeen calls of [genV1] within the millisecond
    2010-07-10T22:10:50.863Z whose draws all fall below 1/8, from the
    initial state, the tick reaches 16 and [timeLow] is 2^32: the last
    UUID renders with nine digits in its first group and is not parsed
    back. *)
Theorem roundtrip_fails_on_timeLow_carry :
  fair zero_source
  /\ let run := generate (repeat overflow_instant 17) (fst (_state zero_source))
                         (snd (_state zero_source)) in
     let u := last (fst (fst run)) sample_uuid in
     field u 0 = Num (2 ^ 32)
     /\ toString u = str "100000000-8c6f-11df-8000-010000000000"
     /\ parse (toString u) = None
     /\ ~ parses_back u.
Proof.
  split; [exact fair_zero|]. cbv zeta.
  set (u := last _ _).
  assert (Hn : parse (toString u) = None) by (vm_compute; reflexivity).
  split; [vm_compute; reflexivity|]. split; [vm_compute; reflexivity|].
  split; [exact Hn|]. intros (p & Hp & _). rewrite Hn in Hp. discriminate.
Qed.

(** C2 as stated fails: the initializer keeps 2^32 as [timeLow]. *)
Lemma init_does_not_mask : ~ (forall args, width_invariant (_init args)).
Proof.
  intros H. destruct (H [Num (2 ^ 32)]) as [(z & E & Hz) _].
  unfold field in E. rewrite init_intFields in E. cbn in E.
  injection E as <-. lia.
Qed.

(** C2, amended: the initializer stores each argument as it is, an
    absent one as 0, without masking; the stored fields fit their
    widths exactly when the arguments do; the UUIDs of [genV4] and of
    [parse] fit. *)
Theorem init_stores_arguments
  (args : list number) (a b c d e f : Z) (s : Source) (text : jsstring)
  (u : UUID) :
  (Forall plain_decimal args ->
   intFields (_init args) = stored args
   /\ (args = [Num a; Num b; Num c; Num d; Num e; Num f] ->
       intFields (_init args) = args
       /\ (width_invariant (_init args)
           <-> 0 <= a < 2 ^ 32 /\ 0 <= b < 2 ^ 16 /\ 0 <= c < 2 ^ 16
               /\ 0 <= d < 2 ^ 8 /\ 0 <= e < 2 ^ 8 /\ 0 <= f < 2 ^ 48)))
  /\ (fair s -> width_invariant (fst (genV4 s)))
  /\ (parse text = Some u -> width_invariant u).
Proof.
  split; [|split].
  - intros _. split; [apply init_intFields|].
    intros ->. split.
    + rewrite init_intFields. apply stored_nums.
    + apply width_invariant_init.
  - apply width_invariant_genV4.
  - apply width_invariant_parse.
Qed.

(** ** Where the round trip of a version 1 UUID holds *)

Section RoundTripV1.

Lemma stored_idem args : stored (stored args) = stored args.
Proof.
  change (stored args)
    with [or_zero (nth_error args 0); or_zero (nth_error args 1);
          or_zero (nth_error args 2); or_zero (nth_error args 3);
          or_zero (nth_error args 4); or_zero (nth_error args 5)].
  rewrite stored_six.
  destruct (or_zero_is_num (nth_error args 0)) as [z0 ->].
  destruct (or_zero_is_num (nth_error args 1)) as [z1 ->].
  destruct (or_zero_is_num (nth_error args 2)) as [z2 ->].
  destruct (or_zero_is_num (nth_error args 3)) as [z3 ->].
  destruct (or_zero_is_num (nth_error args 4)) as [z4 ->].
  destruct (or_zero_is_num (nth_error args 5)) as [z5 ->].
  now rewrite !or_zero_num.
Qed.

Lemma init_stored args : _init args = _init (stored args).
Proof. rewrite (init_eq args), (init_eq (stored args)), stored_idem. reflexivity. Qed.

(** Any initialized UUID whose fields fit their widths is parsed back
    from its rendering. *)
Lemma roundtrip_of_width args :
  width_invariant (_init args) -> parses_back (_init args).
Proof.
  rewrite init_stored. unfold width_invariant, field.
  rewrite init_intFields, stored_idem.
  change (stored args)
    with [or_zero (nth_error args 0); or_zero (nth_error args 1);
          or_zero (nth_error args 2); or_zero (nth_error args 3);
          or_zero (nth_error args 4); or_zero (nth_error args 5)].
  cbn [nth].
  intros ((a & -> & Ha) & (b & -> & Hb) & (c & -> & Hc) & (d & -> & Hd)
          & (e & -> & He) & (f & -> & Hf)).
  now apply roundtrip_fields.
Qed.

(** A version 1 UUID is parsed back whenever the sum of the low time
    field and the tick stays below 2^32 and the node is a 48-bit
    value. *)
Lemma genV1_roundtrip_without_carry now st r k n :
  tick (snd (fst (genV1 now st r))) = Num k ->
  node st = Num n -> 0 <= n < 2 ^ 48 ->
  0 <= TF.low (_getTimeFieldValues (Num now)) + k < 2 ^ 32 ->
  width_invariant (fst (fst (genV1 now st r)))
  /\ parses_back (fst (fst (genV1 now st r))).
Proof.
  intros Hk Hn Bn Bl. rewrite genV1_result in *. cbn [fst snd tick] in *.
  rewrite Hk, Hn. cbn [nadd].
  set (m := band (sequence (fst (advance now st r))) (Num 16383)).
  pose proof (seq14_range (sequence (fst (advance now st r)))) as Hm.
  fold m in Hm. change (2 ^ 14) with 16384 in Hm.
  assert (W : width_invariant
                (_init [Num (TF.low (_getTimeFieldValues (Num now)) + k);
                        Num (TF.mid (_getTimeFieldValues (Num now)));
                        Num (TF.hi (_getTimeFieldValues (Num now)) mod 2 ^ 12 + 4096);
                        Num (m / 2 ^ 8 + 128); Num (m mod 2 ^ 8); Num n])).
  { apply width_invariant_init.
    split; [exact Bl|]. split.
    { cbn [_getTimeFieldValues TF.mid]. change 65535 with (Z.ones 16).
      rewrite band_ones by lia. apply Z.mod_pos_bound. lia. }
    split.
    { pose proof (Z.mod_pos_bound (TF.hi (_getTimeFieldValues (Num now)))
                    (2 ^ 12) ltac:(lia)) as Hh.
      change (2 ^ 12) with 4096 in *. change (2 ^ 16) with 65536. lia. }
    split.
    { change (2 ^ 8) with 256.
      assert (0 <= m / 256 < 64)
        by (split; [apply Z.div_pos; lia|apply Z.div_lt_upper_bound; lia]).
      lia. }
    split; [apply Z.mod_pos_bound; lia|exact Bn]. }
  split; [exact W|]. apply roundtrip_of_width. exact W.
Qed.

End RoundTripV1.

(** ** Instances *)

(** Forty random bits from draws of 1/2. *)
Lemma getRandomInt_range_witness :
  fair half_source
  /\ exists n, fst (_getRandomInt 40 half_source) = Num n /\ 0 <= n < 2 ^ 40.
Proof.
  split; [exact fair_half|].
  apply (getRandomInt_range 40 half_source fair_half). lia.
Defined.

(** The sample text, its six groups and its fields. *)
Lemma parse_canonical_witness :
  canonical_groups sample_text (str "12345678") (str "1234") (str "5678")
                   (str "9a") (str "bc") (str "123456789012")
  /\ exists u, parse sample_text = Some u
               /\ intFields u
                  = [Num (hex_value (str "12345678")); Num (hex_value (str "1234"));
                     Num (hex_value (str "5678")); Num (hex_value (str "9a"));
                     Num (hex_value (str "bc"));
                     Num (hex_value (str "123456789012"))].
Proof.
  assert (C : canonical_groups sample_text (str "12345678") (str "1234")
                (str "5678") (str "9a") (str "bc") (str "123456789012")).
  { unfold canonical_groups, hex_group_of, hex_digit.
    repeat split; try reflexivity;
      repeat (constructor; [simpl; tauto|]); constructor. }
  split; [exact C|].
  apply (parse_canonical sample_text (str "12345678") (str "1234") (str "5678")
           (str "9a") (str "bc") (str "123456789012")).
  exact C.
Defined.

(** A text with upper-case digits renders in lower case. *)
Lemma parse_toString_lowercase_witness :
  parse sample_upper = Some sample_uuid
  /\ toString sample_uuid = toLowerCase sample_upper.
Proof.
  assert (H : parse sample_upper = Some sample_uuid) by (vm_compute; reflexivity).
  split; [exact H|]. exact (parse_toString_lowercase sample_upper sample_uuid H).
Defined.

(** Draws of 1/2 give a version 4 UUID; a call at the sample instant
    gives a version 1 UUID. *)
Lemma version_tagging_witness :
  fair half_source
  /\ version (fst (genV4 half_source)) = 4
  /\ version (fst (fst (genV1 overflow_instant sample_state zero_source))) = 1.
Proof.
  split; [exact fair_half|].
  destruct (version_tagging half_source overflow_instant sample_state
              zero_source) as (H4 & H1 & _).
  split; [exact (proj1 (H4 fair_half))|exact H1].
Defined.

(** The variant bits of a version 4 UUID from draws of 1/2. *)
Lemma variant_tagging_witness :
  fair half_source
  /\ exists z, field (fst (genV4 half_source)) 3 = Num z /\ 0 <= z < 2 ^ 8
               /\ band (Num z) (Num 0xC0) = 0x80.
Proof.
  split; [exact fair_half|].
  exact (proj1 (variant_tagging half_source overflow_instant sample_state
                  zero_source) fair_half).
Defined.

(** A clock that steps back by one millisecond: the sequence 16383 of
    the sample state wraps to 0. *)
Lemma sequence_after_regression_witness :
  1278799850862 < 1278799850863
  /\ clock_sequence
       (fst (fst (genV1 1278799850862
                        (snd (fst (genV1 1278799850863 sample_state zero_source)))
                        zero_source)))
     = (clock_sequence (fst (fst (genV1 1278799850863 sample_state zero_source)))
        + 1) mod 2 ^ 14.
Proof.
  assert (H : 1278799850862 < 1278799850863) by lia.
  split; [exact H|].
  exact (proj1 (proj2 (sequence_after_regression 1278799850863 1278799850862
                         sample_state zero_source zero_source H))).
Defined.

(** The node of the state initialized from draws of 1/2, and two UUIDs
    made from it. *)
Lemma node_multicast_witness :
  fair half_source
  /\ exists n, node (fst (_state half_source)) = Num n
               /\ 0 <= n < 2 ^ 48
               /\ (n / 2 ^ 40) mod 2 = 1
               /\ Z.testbit n 40 = true
               /\ Forall (fun u => field u 5 = Num n)
                    (fst (fst (generate [overflow_instant; overflow_instant]
                                 (fst (_state half_source))
                                 (snd (_state half_source))))).
Proof.
  split; [exact fair_half|].
  exact (node_multicast half_source [overflow_instant; overflow_instant] fair_half).
Defined.

(** Six small arguments, a version 4 UUID and the parsed sample. *)
Lemma init_stores_arguments_witness :
  Forall plain_decimal [Num 1; Num 2; Num 3; Num 4; Num 5; Num 6]
  /\ fair half_source
  /\ parse sample_text = Some sample_uuid
  /\ intFields (_init [Num 1; Num 2; Num 3; Num 4; Num 5; Num 6])
     = stored [Num 1; Num 2; Num 3; Num 4; Num 5; Num 6]
  /\ width_invariant (fst (genV4 half_source))
  /\ width_invariant sample_uuid.
Proof.
  assert (Ha : Forall plain_decimal [Num 1; Num 2; Num 3; Num 4; Num 5; Num 6]).
  { repeat constructor. }
  assert (Hp : parse sample_text = Some sample_uuid) by (vm_compute; reflexivity).
  split; [exact Ha|]. split; [exact fair_half|]. split; [exact Hp|].
  destruct (init_stores_arguments [Num 1; Num 2; Num 3; Num 4; Num 5; Num 6]
              1 2 3 4 5 6 half_source sample_text sample_uuid)
    as (H1 & H3 & H4).
  split; [exact (proj1 (H1 Ha))|]. split; [exact (H3 fair_half)|exact (H4 Hp)].
Defined.

(** * Further properties of the library *)

(** ** The random integers cover their range *)

Section Onto.

Lemma Qfloor_ratio n p : Qfloor ((n # p) * inject_Z (Zpos p)) = n.
Proof.
  unfold Qfloor, Qmult, inject_Z. simpl Qnum. simpl Qden.
  rewrite Pos.mul_1_r. apply Z.div_mul. discriminate.
Qed.

Lemma Qfloor_ratio_eq n p k : Zpos p = k -> Qfloor ((n # p) * inject_Z k) = n.
Proof. intros <-. apply Qfloor_ratio. Qed.

Lemma ratio_unit n p : 0 <= n < Zpos p -> (0 <= n # p)%Q /\ (n # p < 1)%Q.
Proof. intros H. unfold Qle, Qlt. simpl. lia. Qed.

Lemma fair_two_draws q0 q1 :
  (0 <= q0)%Q /\ (q0 < 1)%Q -> (0 <= q1)%Q /\ (q1 < 1)%Q -> fair (two_draws q0 q1).
Proof. intros H0 H1 [|i]; simpl; assumption. Qed.

Lemma pow2_pos_id k : 0 <= k -> Zpos (Z.to_pos (2 ^ k)) = 2 ^ k.
Proof. intros Hk. apply Z2Pos.id. apply Z.pow_pos_nonneg; lia. Qed.

End Onto.

(** X2: every integer of [0, 2^x) is returned by [_getRandomInt x] for
    some fair draws, for each width [x] of [0, 53]: the generator covers
    its whole range. *)
Theorem getRandomInt_onto (x n : Z) :
  0 <= x <= 53 -> 0 <= n < 2 ^ x ->
  fair (draws_for x n) /\ fst (_getRandomInt x (draws_for x n)) = Num n.
Proof.
  intros Hx Hn. unfold draws_for.
  destruct (Z.leb_spec x 30) as [Hlo|Hhi].
  - pose proof (pow2_pos_id x ltac:(lia)) as Hp.
    set (p := Z.to_pos (2 ^ x)) in *.
    assert (Hf : fair (two_draws (n # p) 0)).
    { apply fair_two_draws; [apply ratio_unit; lia|].
      split; [apply Qle_refl|reflexivity]. }
    split; [exact Hf|].
    destruct (getRandomInt_low x _ Hf ltac:(lia)) as [-> _].
    cbn [fst two_draws]. now rewrite (Qfloor_ratio_eq n p _ Hp).
  - pose proof (pow2_pos_id 30 ltac:(lia)) as Hp.
    pose proof (pow2_pos_id (x - 30) ltac:(lia)) as Hq.
    set (p := Z.to_pos (2 ^ 30)) in *. set (q := Z.to_pos (2 ^ (x - 30))) in *.
    assert (H30 : 0 < 2 ^ 30) by reflexivity.
    assert (Hhigh : 0 <= n / 2 ^ 30 < 2 ^ (x - 30)).
    { split; [apply Z.div_pos; lia|]. apply Z.div_lt_upper_bound; [lia|].
      rewrite <- Z.pow_add_r by lia. replace (30 + (x - 30)) with x by lia. lia. }
    assert (Hf : fair (two_draws ((n mod 2 ^ 30) # p) ((n / 2 ^ 30) # q))).
    { apply fair_two_draws; apply ratio_unit.
      - rewrite Hp. apply Z.mod_pos_bound. exact H30.
      - rewrite Hq. exact Hhigh. }
    split; [exact Hf|].
    destruct (getRandomInt_high x _ Hf ltac:(lia)) as [-> _].
    cbn [fst two_draws].
    rewrite (Qfloor_ratio_eq _ p _ Hp), (Qfloor_ratio_eq _ q _ Hq). f_equal.
    pose proof (Z.div_mod n (2 ^ 30) ltac:(lia)). lia.
Qed.

Lemma getRandomInt_onto_witness :
  fair (draws_for 40 1099511627775)
  /\ fst (_getRandomInt 40 (draws_for 40 1099511627775)) = Num 1099511627775.
Proof.
  apply (getRandomInt_onto 40 1099511627775); [lia|].
  split; [discriminate|reflexivity].
Defined.

(** ** The aligner pads and never truncates *)

Section AlignerAny.





End AlignerAny.



(** ** Equality of UUIDs *)

Section Equality.

Lemma stored_is_nums args :
  exists a b c d e f, stored args = [Num a; Num b; Num c; Num d; Num e; Num f].
Proof.
  change (stored args)
    with [or_zero (nth_error args 0); or_zero (nth_error args 1);
          or_zero (nth_error args 2); or_zero (nth_error args 3);
          or_zero (nth_error args 4); or_zero (nth_error args 5)].
  destruct (or_zero_is_num (nth_error args 0)) as [a ->].
  destruct (or_zero_is_num (nth_error args 1)) as [b ->].
  destruct (or_zero_is_num (nth_error args 2)) as [c ->].
  destruct (or_zero_is_num (nth_error args 3)) as [d ->].
  destruct (or_zero_is_num (nth_error args 4)) as [e ->].
  destruct (or_zero_is_num (nth_error args 5)) as [f ->].
  now exists a, b, c, d, e, f.
Qed.

(** [equals] on initialized UUIDs compares what was stored. *)
Lemma equals_init_iff xs ys :
  equals (_init xs) (Some (_init ys)) = true <-> stored xs = stored ys.
Proof.
  unfold equals. rewrite !init_intFields.
  destruct (stored_is_nums xs) as (a & b & c & d & e & f & ->).
  destruct (stored_is_nums ys) as (a' & b' & c' & d' & e' & f' & ->).
  cbn [List.length seq forallb nth_error strict_eq].
  rewrite !andb_true_iff, !Z.eqb_eq. split.
  - intros (-> & -> & -> & -> & -> & -> & _). reflexivity.
  - intros [= -> -> -> -> -> ->]. repeat split.
Qed.

Lemma init_eq_of_stored xs ys : stored xs = stored ys -> _init xs = _init ys.
Proof. intros E. now rewrite (init_stored xs), (init_stored ys), E. Qed.

End Equality.


(** ** Rendering, parsing and the widths *)

Section Rendering.

(** What parsing gives: an initialized UUID that renders as the text in
    lower case and is parsed back from its rendering. *)
Lemma parse_rendered s u :
  parse s = Some u ->
  toString u = toLowerCase s /\ parse (toString u) = Some u
  /\ exists args, u = _init args.
Proof.
  intros H. destruct (parse_some s u H) as (g1 & g2 & g3 & g4 & g5 & g6 & M & E).
  pose proof (width_invariant_parse s u H) as W. subst u.
  split; [apply rendered_matched; exact M|].
  split; [|eexists; reflexivity].
  apply width_invariant_init in W.
  destruct W as (Ha & Hb & Hc & Hd & He & Hf).
  now apply roundtrip_fields.
Qed.

End Rendering.

(** X6: for every initialized UUID the round trip
    [parse(u.toString()).equals(u)] holds exactly when each of the six
    fields fits its width. *)
Theorem roundtrip_iff_width (args : list number) :
  parses_back (_init args) <-> width_invariant (_init args).
Proof.
  split; [|apply roundtrip_of_width].
  intros (p & Hp & He).
  pose proof (width_invariant_parse _ _ Hp) as W.
  destruct (parse_rendered _ _ Hp) as (_ & _ & ps & ->).
  apply equals_init_iff in He.
  unfold width_invariant, field in W |- *.
  rewrite init_intFields in W. rewrite init_intFields, <- He. exact W.
Qed.

(** X12: the parser ignores the case of the digits: an accepted text
    and its lower-case form give the same UUID, the rendering of a
    parsed UUID is parsed to that UUID again, and two accepted texts give
    equal UUIDs exactly when they agree up to case. *)
Theorem parse_ignores_case (s1 s2 : jsstring) (u1 u2 : UUID) :
  parse s1 = Some u1 -> parse s2 = Some u2 ->
  parse (toLowerCase s1) = Some u1
  /\ parse (toString u1) = Some u1
  /\ (equals u1 (Some u2) = true <-> toLowerCase s1 = toLowerCase s2).
Proof.
  intros H1 H2.
  destruct (parse_rendered _ _ H1) as (R1 & P1 & xs & E1).
  destruct (parse_rendered _ _ H2) as (R2 & P2 & ys & E2).
  split; [now rewrite <- R1|]. split; [exact P1|].
  rewrite <- R1, <- R2. subst u1 u2. rewrite equals_init_iff. split.
  - intros E. now rewrite (init_eq_of_stored _ _ E).
  - intros E. rewrite E in P1.
    assert (E' : _init xs = _init ys) by congruence.
    rewrite <- (init_intFields xs), <- (init_intFields ys). now rewrite E'.
Qed.

Lemma parse_ignores_case_witness :
  parse sample_upper = Some sample_uuid /\ parse sample_text = Some sample_uuid
  /\ parse (toLowerCase sample_upper) = Some sample_uuid
  /\ parse (toString sample_uuid) = Some sample_uuid
  /\ (equals sample_uuid (Some sample_uuid) = true
      <-> toLowerCase sample_upper = toLowerCase sample_text).
Proof.
  assert (H1 : parse sample_upper = Some sample_uuid) by (vm_compute; reflexivity).
  assert (H2 : parse sample_text = Some sample_uuid) by (vm_compute; reflexivity).
  split; [exact H1|]. split; [exact H2|].
  exact (parse_ignores_case sample_upper sample_text sample_uuid sample_uuid H1 H2).
Defined.

(** ** The three representations of the fields *)

Section Representations.


Lemma init_hexFields a b c d e f :
  hexFields (_init [Num a; Num b; Num c; Num d; Num e; Num f])
  = [_getIntAligner 16 (Num a) 8; _getIntAligner 16 (Num b) 4;
     _getIntAligner 16 (Num c) 4; _getIntAligner 16 (Num d) 2;
     _getIntAligner 16 (Num e) 2; _getIntAligner 16 (Num f) 12].
Proof. rewrite init_eq, stored_nums. reflexivity. Qed.

Lemma init_bitFields a b c d e f :
  bitFields (_init [Num a; Num b; Num c; Num d; Num e; Num f])
  = [_getIntAligner 2 (Num a) 32; _getIntAligner 2 (Num b) 16;
     _getIntAligner 2 (Num c) 16; _getIntAligner 2 (Num d) 8;
     _getIntAligner 2 (Num e) 8; _getIntAligner 2 (Num f) 48].
Proof. rewrite init_eq, stored_nums. reflexivity. Qed.

Lemma init_bitString a b c d e f :
  bitString (_init [Num a; Num b; Num c; Num d; Num e; Num f])
  = List.concat (bitFields (_init [Num a; Num b; Num c; Num d; Num e; Num f])).
Proof. rewrite init_eq, stored_nums. reflexivity. Qed.

(** The value of six digit sequences put one after the other. *)
Lemma digits_value_six R d1 d2 d3 d4 d5 d6 :
  digits_value R (d1 ++ d2 ++ d3 ++ d4 ++ d5 ++ d6)
  = ((((digits_value R d1 * R ^ Z.of_nat (List.length d2) + digits_value R d2)
       * R ^ Z.of_nat (List.length d3) + digits_value R d3)
      * R ^ Z.of_nat (List.length d4) + digits_value R d4)
     * R ^ Z.of_nat (List.length d5) + digits_value R d5)
    * R ^ Z.of_nat (List.length d6) + digits_value R d6.
Proof.
  rewrite !digits_value_app, !length_app, !Nat2Z.inj_add.
  rewrite !Z.pow_add_r by lia. ring.
Qed.

Lemma bit_chars ds :
  Forall (fun d => 0 <= d < 2) ds -> Forall is_bit (map digit_char ds).
Proof.
  induction 1 as [|d t Hd _ IH]; simpl; constructor; [|exact IH].
  assert (d = 0 \/ d = 1) as [-> | ->] by lia; [now left|now right].
Qed.

Lemma small_digits R ds :
  R <= 36 -> Forall (fun d => 0 <= d < R) ds -> Forall (fun d => 0 <= d < 36) ds.
Proof. intros HR H. eapply Forall_impl; [|exact H]. simpl. intros d. lia. Qed.

End Representations.



(** X5: when the six fields fit their widths the bit strings of the
    fields have 32, 16, 16, 8, 8 and 48 characters, [bitString] has 128
    characters, all 0 or 1, and denotes in radix 2 the 128-bit number
    made of the six fields in order; the 32 hexadecimal digits of the
    fields denote the same number. *)
Theorem bitString_value (a b c d e f : Z) :
  0 <= a < 2 ^ 32 -> 0 <= b < 2 ^ 16 -> 0 <= c < 2 ^ 16 ->
  0 <= d < 2 ^ 8 -> 0 <= e < 2 ^ 8 -> 0 <= f < 2 ^ 48 ->
  let u := _init [Num a; Num b; Num c; Num d; Num e; Num f] in
  map (@List.length ascii) (bitFields u) = [32; 16; 16; 8; 8; 48]%nat
  /\ map (@List.length ascii) (hexFields u) = [8; 4; 4; 2; 2; 12]%nat
  /\ List.length (bitString u) = 128%nat
  /\ Forall is_bit (bitString u)
  /\ digits_value 2 (vals (bitString u)) = number128 a b c d e f
  /\ digits_value 16 (vals (List.concat (hexFields u))) = number128 a b c d e f.
Proof.
  intros Ha Hb Hc Hd He Hf u. unfold u.
  rewrite init_bitString, init_bitFields, init_hexFields.
  destruct (aligner_digits 2 a 32 ltac:(lia) ltac:(lia) Ha) as (p1 & E1 & L1 & F1 & V1).
  destruct (aligner_digits 2 b 16 ltac:(lia) ltac:(lia) Hb) as (p2 & E2 & L2 & F2 & V2).
  destruct (aligner_digits 2 c 16 ltac:(lia) ltac:(lia) Hc) as (p3 & E3 & L3 & F3 & V3).
  destruct (aligner_digits 2 d 8 ltac:(lia) ltac:(lia) Hd) as (p4 & E4 & L4 & F4 & V4).
  destruct (aligner_digits 2 e 8 ltac:(lia) ltac:(lia) He) as (p5 & E5 & L5 & F5 & V5).
  destruct (aligner_digits 2 f 48 ltac:(lia) ltac:(lia) Hf) as (p6 & E6 & L6 & F6 & V6).
  destruct (aligner_digits 16 a 8 ltac:(lia) ltac:(lia) Ha) as (h1 & G1 & M1 & K1 & W1).
  destruct (aligner_digits 16 b 4 ltac:(lia) ltac:(lia) Hb) as (h2 & G2 & M2 & K2 & W2).
  destruct (aligner_digits 16 c 4 ltac:(lia) ltac:(lia) Hc) as (h3 & G3 & M3 & K3 & W3).
  destruct (aligner_digits 16 d 2 ltac:(lia) ltac:(lia) Hd) as (h4 & G4 & M4 & K4 & W4).
  destruct (aligner_digits 16 e 2 ltac:(lia) ltac:(lia) He) as (h5 & G5 & M5 & K5 & W5).
  destruct (aligner_digits 16 f 12 ltac:(lia) ltac:(lia) Hf) as (h6 & G6 & M6 & K6 & W6).
  change (Z.of_nat 32) with 32 in *. change (Z.of_nat 16) with 16 in *.
  change (Z.of_nat 8) with 8 in *. change (Z.of_nat 48) with 48 in *.
  change (Z.of_nat 4) with 4 in *. change (Z.of_nat 2) with 2 in *.
  change (Z.of_nat 12) with 12 in *.
  rewrite E1, E2, E3, E4, E5, E6, G1, G2, G3, G4, G5, G6.
  cbn [map List.concat]. rewrite !app_nil_r, !length_map.
  rewrite L1, L2, L3, L4, L5, L6, M1, M2, M3, M4, M5, M6.
  split; [reflexivity|]. split; [reflexivity|].
  rewrite <- !map_app.
  assert (FP : Forall (fun d => 0 <= d < 2) (p1 ++ p2 ++ p3 ++ p4 ++ p5 ++ p6))
    by (repeat (apply Forall_app; split; try assumption)).
  assert (FH : Forall (fun d => 0 <= d < 16) (h1 ++ h2 ++ h3 ++ h4 ++ h5 ++ h6))
    by (repeat (apply Forall_app; split; try assumption)).
  split; [rewrite length_map, !length_app, L1, L2, L3, L4, L5, L6; reflexivity|].
  split; [apply bit_chars; exact FP|].
  rewrite !vals_chars by (eapply small_digits; [|eassumption]; lia).
  rewrite !digits_value_six.
  rewrite L2, L3, L4, L5, L6, M2, M3, M4, M5, M6, V1, V2, V3, V4, V5, V6,
    W1, W2, W3, W4, W5, W6.
  unfold number128. split; vm_compute Z.pow; ring.
Qed.

Lemma bitString_value_witness :
  List.length (bitString sample_uuid) = 128%nat
  /\ digits_value 2 (vals (bitString sample_uuid))
     = number128 0x12345678 0x1234 0x5678 0x9a 0xbc 0x123456789012.
Proof.
  assert (Ha : 0 <= 0x12345678 < 2 ^ 32) by (split; [discriminate|reflexivity]).
  assert (Hb : 0 <= 0x1234 < 2 ^ 16) by (split; [discriminate|reflexivity]).
  assert (Hc : 0 <= 0x5678 < 2 ^ 16) by (split; [discriminate|reflexivity]).
  assert (Hd : 0 <= 0x9a < 2 ^ 8) by (split; [discriminate|reflexivity]).
  assert (He : 0 <= 0xbc < 2 ^ 8) by (split; [discriminate|reflexivity]).
  assert (Hf : 0 <= 0x123456789012 < 2 ^ 48) by (split; [discriminate|reflexivity]).
  destruct (bitString_value 0x12345678 0x1234 0x5678 0x9a 0xbc 0x123456789012
              Ha Hb Hc Hd He Hf) as (_ & _ & HL & _ & HV & _).
  split; [exact HL|exact HV].
Defined.

(** ** The string generator *)

Section StringGenerator.

(** Four hexadecimal digits are the two digits of the high octet and
    the two digits of the low octet. *)
Lemma aligner_split v :
  0 <= v < 2 ^ 16 ->
  _getIntAligner 16 (Num v) 4
  = _getIntAligner 16 (Num (v / 2 ^ 8)) 2 ++ _getIntAligner 16 (Num (v mod 2 ^ 8)) 2.
Proof.
  intros Hv.
  assert (Hq : 0 <= v / 2 ^ 8 < 16 ^ Z.of_nat 2).
  { change (2 ^ 16) with 65536 in Hv. change (2 ^ 8) with 256.
    change (16 ^ Z.of_nat 2) with 256.
    split; [apply Z.div_pos; lia|apply Z.div_lt_upper_bound; lia]. }
  assert (Hr : 0 <= v mod 2 ^ 8 < 16 ^ Z.of_nat 2).
  { change (16 ^ Z.of_nat 2) with (2 ^ 8). apply Z.mod_pos_bound. reflexivity. }
  destruct (aligner_digits 16 v 4 ltac:(lia) ltac:(lia) Hv) as (ds & E & L & F & V).
  destruct (aligner_digits 16 _ 2 ltac:(lia) ltac:(lia) Hq) as (hs & Eh & Lh & Fh & Vh).
  destruct (aligner_digits 16 _ 2 ltac:(lia) ltac:(lia) Hr) as (ls & El & Ll & Fl & Vl).
  change (Z.of_nat 4) with 4 in E. change (Z.of_nat 2) with 2 in Eh, El.
  rewrite E, Eh, El, <- map_app. f_equal.
  apply (digits_value_inj 16); try lia; try assumption.
  - apply Forall_app. now split.
  - rewrite length_app. lia.
  - rewrite digits_value_app, Ll, V, Vh, Vl.
    change (16 ^ Z.of_nat 2) with (2 ^ 8).
    pose proof (Z.div_mod v (2 ^ 8) ltac:(discriminate)). lia.
Qed.

Lemma matched_length s g1 g2 g3 g4 g5 g6 :
  matched s g1 g2 g3 g4 g5 g6 -> List.length s = 36%nat.
Proof.
  intros (-> & (L1 & _) & (L2 & _) & (L3 & _) & (L4 & _) & (L5 & _) & (L6 & _)).
  rewrite !length_app, L1, L2, L3, L4, L5, L6. reflexivity.
Qed.

(** The text of [UUID.generate]: the rendering of an initialized UUID
    with a version 4 tag and a variant tag. *)
Lemma generate_text s :
  fair s ->
  exists a b c d e,
    fst (UUID.generate s)
    = toString (_init [Num a; Num b; Num (c + 4096 * 4); Num (d / 2 ^ 8 + 128);
                       Num (d mod 2 ^ 8); Num e])
    /\ 0 <= a < 2 ^ 32 /\ 0 <= b < 2 ^ 16 /\ 0 <= c < 2 ^ 12
    /\ 0 <= d < 2 ^ 14 /\ 0 <= e < 2 ^ 48.
Proof.
  intros Hs. unfold UUID.generate, bind, ret. cbv zeta.
  destruct (rand_fits 32 s Hs ltac:(lia)) as (a & Ea & Ha & S1).
  set (s1 := snd (_getRandomInt 32 s)) in *.
  destruct (rand_fits 16 s1 S1 ltac:(lia)) as (b & Eb & Hb & S2).
  set (s2 := snd (_getRandomInt 16 s1)) in *.
  destruct (rand_fits 12 s2 S2 ltac:(lia)) as (c & Ec & Hc & S3).
  set (s3 := snd (_getRandomInt 12 s2)) in *.
  destruct (rand_fits 14 s3 S3 ltac:(lia)) as (d & Ed & Hd & S4).
  set (s4 := snd (_getRandomInt 14 s3)) in *.
  destruct (rand_fits 48 s4 S4 ltac:(lia)) as (e & Ee & He & _).
  exists a, b, c, d, e.
  rewrite Ea, Eb, Ec, Ed, Ee. cbn [fst].
  change (2 ^ 12) with 4096 in Hc. change (2 ^ 14) with 16384 in Hd.
  change 0x4000 with (2 ^ 14). change 0x8000 with (2 ^ 15).
  rewrite (bor_flag_l c 14) by (change (2 ^ 14) with 16384; lia).
  rewrite (bor_flag_l d 15) by (change (2 ^ 15) with 32768; lia).
  split; [|repeat split; try assumption; lia].
  unfold toString. rewrite init_hexString.
  rewrite (aligner_split (2 ^ 15 + d)) by
    (change (2 ^ 15) with 32768; change (2 ^ 16) with 65536; lia).
  replace ((2 ^ 15 + d) / 2 ^ 8) with (d / 2 ^ 8 + 128).
  2:{ replace (2 ^ 15 + d) with (d + 128 * 2 ^ 8) by reflexivity || lia.
      now rewrite Z.div_add by discriminate. }
  replace ((2 ^ 15 + d) mod 2 ^ 8) with (d mod 2 ^ 8).
  2:{ replace (2 ^ 15 + d) with (d + 128 * 2 ^ 8) by reflexivity || lia.
      now rewrite Z.mod_add by discriminate. }
  replace (2 ^ 14 + c) with (c + 4096 * 4) by (change (2 ^ 14) with 16384; lia).
  now rewrite <- !app_assoc.
Qed.

End StringGenerator.

(** X1: for fair draws the text of [UUID.generate] has 36 characters
    and is in canonical form: [parse] accepts it and gives a UUID of
    version 4 and variant 10 whose fields fit their widths and whose
    rendering is the text itself. *)
Theorem generate_canonical (s : Source) :
  fair s ->
  List.length (fst (UUID.generate s)) = 36%nat
  /\ exists u, parse (fst (UUID.generate s)) = Some u
               /\ toString u = fst (UUID.generate s)
               /\ version u = 4
               /\ (exists z, field u 3 = Num z /\ band (Num z) (Num 0xC0) = 0x80)
               /\ width_invariant u.
Proof.
  intros Hs.
  destruct (generate_text s Hs) as (a & b & c & d & e & -> & Ha & Hb & Hc & Hd & He).
  change (2 ^ 14) with 16384 in Hd. change (2 ^ 12) with 4096 in Hc.
  assert (Hq : 0 <= d / 2 ^ 8 < 64).
  { change (2 ^ 8) with 256.
    split; [apply Z.div_pos; lia|apply Z.div_lt_upper_bound; lia]. }
  assert (Hr : 0 <= d mod 2 ^ 8 < 2 ^ 8) by (apply Z.mod_pos_bound; reflexivity).
  set (u := _init [Num a; Num b; Num (c + 4096 * 4); Num (d / 2 ^ 8 + 128);
                   Num (d mod 2 ^ 8); Num e]).
  assert (W : width_invariant u).
  { apply width_invariant_init. change (2 ^ 16) with 65536.
    change (2 ^ 8) with 256 in *. repeat split; try assumption; lia. }
  destruct (roundtrip_fields a b (c + 4096 * 4) (d / 2 ^ 8 + 128) (d mod 2 ^ 8) e)
    as [P _]; try assumption;
    try (change (2 ^ 16) with 65536; change (2 ^ 8) with 256 in *; lia).
  fold u in P. split.
  - destruct (parse_some _ _ P) as (g1 & g2 & g3 & g4 & g5 & g6 & M & _).
    eapply matched_length. exact M.
  - exists u. split; [exact P|]. split; [reflexivity|]. split; [|split].
    + unfold u. rewrite init_version, stored_nums. cbn [nth].
      apply version_of_tagged; change (2 ^ 12) with 4096; lia.
    + exists (d / 2 ^ 8 + 128). unfold u, field.
      rewrite init_intFields, stored_nums. cbn [nth].
      split; [reflexivity|]. apply variant_bits. lia.
    + exact W.
Qed.

Lemma generate_canonical_witness :
  fair half_source
  /\ List.length (fst (UUID.generate half_source)) = 36%nat.
Proof.
  split; [exact fair_half|]. exact (proj1 (generate_canonical half_source fair_half)).
Defined.

(** ** The version 1 generator over its runs *)

Section Runs.

(** The ranges of the time fields, whatever the time. *)
Lemma timefields_range time :
  0 <= TF.low (_getTimeFieldValues time) < 2 ^ 32
  /\ 0 <= TF.mid (_getTimeFieldValues time) < 2 ^ 16
  /\ 0 <= TF.hi (_getTimeFieldValues time) < 2 ^ 12.
Proof.
  unfold _getTimeFieldValues. cbn [TF.low TF.mid TF.hi].
  set (ts := nsub time (Num (Date_UTC 1582 9 15))).
  set (hm := match ts with
             | Num z => band (Num (scaled_ticks z)) (Num 0xFFFFFFF)
             | NaN => band NaN (Num 0xFFFFFFF)
             end).
  assert (Hm : 0 <= hm < 2 ^ 28).
  { unfold hm. change 0xFFFFFFF with (Z.ones 28).
    destruct ts; rewrite band_ones by lia; apply Z.mod_pos_bound; lia. }
  split; [|split].
  - change 0xFFFFFFF with (Z.ones 28). rewrite band_ones by lia.
    pose proof (Z.mod_pos_bound (ToInt32 ts) (2 ^ 28) ltac:(lia)) as Hb.
    unfold nrem. rewrite Z.rem_mod_nonneg by lia.
    apply Z.mod_pos_bound. reflexivity.
  - change 0xFFFF with (Z.ones 16). rewrite band_ones by lia.
    apply Z.mod_pos_bound. lia.
  - change (2 ^ 28) with 268435456 in Hm.
    rewrite shr_small by (change (2 ^ 32) with 4294967296; lia).
    change (2 ^ 16) with 65536. change (2 ^ 12) with 4096.
    split; [apply Z.div_pos; lia|apply Z.div_lt_upper_bound; lia].
Qed.

(** The integer fields of a version 1 UUID. *)
Lemma genV1_intFields now st r :
  let st1 := fst (advance now st r) in
  let tf := _getTimeFieldValues (Num now) in
  let m := band (sequence st1) (Num 0x3FFF) in
  intFields (fst (fst (genV1 now st r)))
  = [or_zero (Some (nadd (Num (TF.low tf)) (tick st1))); Num (TF.mid tf);
     Num (TF.hi tf mod 2 ^ 12 + 4096); Num (m / 2 ^ 8 + 128);
     Num (m mod 2 ^ 8); or_zero (Some (node st))].
Proof.
  intros st1 tf m. rewrite genV1_result. cbn [fst].
  rewrite init_intFields, stored_six. now rewrite !or_zero_num.
Qed.

(** The tick after the update of the state. *)
Lemma advance_tick now st r k :
  tick st = Num k -> 0 <= k <= 9999 ->
  exists k', tick (fst (advance now st r)) = Num k' /\ 0 <= k' <= 9999.
Proof.
  intros Hk Bk. unfold advance.
  destruct (strict_eq (Num now) (timestamp st)).
  - unfold bind, Math_random, ret. cbv zeta. cbn [fst snd negb].
    destruct (Qlt_le_dec (r 0%nat) _tsRatio); cbn [andb].
    + rewrite Hk. cbn [nlt]. destruct (Z.ltb_spec k 9999).
      * exists (k + 1). cbn [fst incr_tick tick]. rewrite Hk. cbn [nadd].
        split; [reflexivity|lia].
      * exists k. cbn [fst incr_sequence tick]. now split.
    + exists k. cbn [fst incr_sequence tick]. now split.
  - exists 0. cbn [negb ret fst tick]. split; [reflexivity|lia].
Qed.

Lemma genV1_well_formed now st r :
  well_formed st ->
  well_formed (snd (fst (genV1 now st r)))
  /\ node (snd (fst (genV1 now st r))) = node st
  /\ timestamp (snd (fst (genV1 now st r))) = Num now.
Proof.
  intros (t & m & n & k & Et & Em & En & Ek & Bm & Bn & Bk).
  rewrite genV1_result. cbn [snd node timestamp].
  split; [|split; reflexivity].
  destruct (advance_tick now st r k Ek Bk) as (k' & Ek' & Bk').
  exists now, (band (sequence (fst (advance now st r))) (Num 0x3FFF)), n, k'.
  cbn [timestamp sequence node tick].
  repeat split; try assumption; try apply seq14_range; lia.
Qed.

Lemma state_well_formed s : fair s -> well_formed (fst (_state s)).
Proof.
  intros Hs.
  destruct (state_node s Hs) as (a & b & En & Ha & Hb).
  revert En. unfold _state, bind, ret. cbv zeta.
  destruct (rand_fits 14 s Hs ltac:(lia)) as (q & Eq & Hq & _).
  cbn [fst node]. intros En.
  exists 0, q, ((2 * (a / 2) + 1) * 2 ^ 40 + b), 0.
  cbn [timestamp sequence node tick].
  change (2 ^ 8) with 256 in Ha.
  assert (0 <= a / 2 < 128)
    by (split; [apply Z.div_pos; lia|apply Z.div_lt_upper_bound; lia]).
  assert (0 < 2 ^ 40) by reflexivity.
  repeat split; try assumption; try reflexivity; try lia;
    try (change (2 ^ 48) with (256 * 2 ^ 40)); nia.
Qed.

Lemma generate_well_formed nows : forall st r,
  well_formed st ->
  well_formed (final_state nows st r)
  /\ node (final_state nows st r) = node st
  /\ timestamp (final_state nows st r)
     = match nows with [] => timestamp st | _ => Num (last nows 0) end.
Proof.
  induction nows as [|now rest IH]; intros st r W.
  - unfold final_state. simpl. now repeat split.
  - unfold final_state. cbn [generate]. unfold bind, ret. cbv zeta. cbn [fst snd].
    destruct (genV1_well_formed now st r W) as (W1 & N1 & T1).
    destruct (IH (snd (fst (genV1 now st r))) (snd (genV1 now st r)) W1)
      as (W2 & N2 & T2).
    unfold final_state in W2, N2, T2.
    split; [exact W2|]. split; [now rewrite N2|].
    rewrite T2. destruct rest; [exact T1|reflexivity].
Qed.

End Runs.

(** X8: in every run of [genV1] from the initial state the state stays
    well formed: numeric fields, a tick of at most 9999, a 14-bit
    sequence, the 48-bit node of the initial state; its timestamp is the
    last clock reading (0 before the first call). *)
Theorem run_keeps_state (s : Source) (nows : list Z) :
  fair s ->
  let st0 := fst (_state s) in
  let st := final_state nows st0 (snd (_state s)) in
  well_formed st0 /\ well_formed st /\ node st = node st0
  /\ timestamp st = Num (last nows 0).
Proof.
  intros Hs st0 st.
  pose proof (state_well_formed s Hs) as W0. fold st0 in W0.
  destruct (generate_well_formed nows st0 (snd (_state s)) W0) as (W & N & T).
  fold st in W, N, T.
  split; [exact W0|]. split; [exact W|]. split; [exact N|].
  rewrite T. destruct nows; [|reflexivity].
  unfold st0, _state, bind, ret. reflexivity.
Qed.

Lemma run_keeps_state_witness :
  fair half_source
  /\ well_formed (final_state [overflow_instant; overflow_instant; inexact_instant]
                    (fst (_state half_source)) (snd (_state half_source))).
Proof.
  split; [exact fair_half|].
  exact (proj1 (proj2 (run_keeps_state half_source
           [overflow_instant; overflow_instant; inexact_instant] fair_half))).
Defined.

(** ** Successive version 1 UUIDs *)

Section Successive.


Lemma Num_inj a b : Num a = Num b -> a = b.
Proof.
  intros H. exact (f_equal (fun n => match n with Num z => z | NaN => 0 end) H).
Qed.


Lemma sequence_split m m' :
  0 <= m < 2 ^ 14 -> 0 <= m' < 2 ^ 14 ->
  m / 2 ^ 8 + 128 = m' / 2 ^ 8 + 128 -> m mod 2 ^ 8 = m' mod 2 ^ 8 -> m = m'.
Proof.
  intros _ _ Hq Hr.
  pose proof (Z.div_mod m (2 ^ 8) ltac:(discriminate)).
  pose proof (Z.div_mod m' (2 ^ 8) ltac:(discriminate)). lia.
Qed.


End Successive.



(** ** The fields of a version 1 UUID *)

(** X10: the time fields computed by [_getTimeFieldValues] are in
    [0, 2^32), [0, 2^16) and [0, 2^12) for every argument; in a version
    1 UUID the fields [timeMid], [timeHiAndVersion],
    [clockSeqHiAndReserved] and [clockSeqLow] fit their widths for every
    state, and from a well-formed state the node fits 48 bits and
    [timeLow] is below 2^32 + 10000: only [timeLow] can leave its
    width. *)
Theorem v1_field_ranges (time : number) (now : Z) (st : UUIDState) (r : Source) :
  let tf := _getTimeFieldValues time in
  let u := fst (fst (genV1 now st r)) in
  (0 <= TF.low tf < 2 ^ 32 /\ 0 <= TF.mid tf < 2 ^ 16 /\ 0 <= TF.hi tf < 2 ^ 12)
  /\ (fits (field u 1) 16 /\ fits (field u 2) 16 /\ fits (field u 3) 8
      /\ fits (field u 4) 8)
  /\ (well_formed st ->
      fits (field u 5) 48
      /\ exists x, field u 0 = Num x /\ 0 <= x < 2 ^ 32 + 10000).
Proof.
  intros tf u. split; [apply timefields_range|].
  pose proof (genV1_intFields now st r) as I. cbv zeta in I.
  destruct (timefields_range (Num now)) as (Bl & Bm & Bh).
  set (m := band (sequence (fst (advance now st r))) (Num 0x3FFF)) in *.
  pose proof (seq14_range (sequence (fst (advance now st r)))) as Hm.
  fold m in Hm. change (2 ^ 14) with 16384 in Hm.
  assert (Hq : 0 <= m / 2 ^ 8 < 64).
  { change (2 ^ 8) with 256.
    split; [apply Z.div_pos; lia|apply Z.div_lt_upper_bound; lia]. }
  unfold u, field. rewrite I. cbn [nth]. split.
  - rewrite !fits_num. split; [exact Bm|]. split; [|split].
    + pose proof (Z.mod_pos_bound (TF.hi (_getTimeFieldValues (Num now)))
                    (2 ^ 12) ltac:(lia)) as Hh.
      change (2 ^ 12) with 4096 in *. change (2 ^ 16) with 65536. lia.
    + change (2 ^ 8) with 256 in *. lia.
    + apply Z.mod_pos_bound. reflexivity.
  - intros (t & q & n & k & Et & Eq & En & Ek & Bq & Bn & Bk).
    destruct (advance_tick now st r k Ek Bk) as (k' & Ek' & Bk').
    rewrite En, Ek'. cbn [nadd]. rewrite !or_zero_num. split.
    + apply fits_num. assert (0 < 2 ^ 40) by reflexivity. lia.
    + eexists. split; [reflexivity|]. lia.
Qed.

Lemma v1_field_ranges_witness :
  well_formed sample_state
  /\ fits (field (fst (fst (genV1 overflow_instant sample_state zero_source))) 5) 48.
Proof.
  assert (W : well_formed sample_state).
  { exists 0, 16383, 0x10000000001, 0. cbn [sample_state timestamp sequence node tick].
    repeat split; try reflexivity; discriminate. }
  split; [exact W|].
  destruct (v1_field_ranges NaN overflow_instant sample_state zero_source)
    as (_ & _ & H).
  exact (proj1 (H W)).
Defined.

Section Timestamp.

Lemma split60 N :
  (N / 2 ^ 48) mod 2 ^ 12 * 2 ^ 48 + (N / 2 ^ 32) mod 2 ^ 16 * 2 ^ 32 + N mod 2 ^ 32
  = N mod 2 ^ 60.
Proof.
  change (2 ^ 60) with (2 ^ 32 * 2 ^ 28).
  rewrite Z.rem_mul_r by first [discriminate | reflexivity].
  change (2 ^ 28) with (2 ^ 16 * 2 ^ 12).
  rewrite (Z.rem_mul_r (N / 2 ^ 32)) by first [discriminate | reflexivity].
  rewrite Z.div_div by first [discriminate | reflexivity].
  change (2 ^ 32 * 2 ^ 16) with (2 ^ 48). change (2 ^ 48) with (2 ^ 32 * 2 ^ 16) at 2.
  ring.
Qed.

End Timestamp.

Section Timestamp60.

(** In the exact range the time fields add up to the count of
    intervals modulo 2^60, plus the tick. *)
Lemma timestamp60_exact now st r k :
  0 <= now - Date_UTC 1582 9 15 ->
  (now - Date_UTC 1582 9 15) * 625 < 2 ^ 53 ->
  tick (snd (fst (genV1 now st r))) = Num k ->
  timestamp60 (fst (fst (genV1 now st r))) = Num (intervals now + k)
  /\ 0 <= intervals now < 2 ^ 57.
Proof.
  intros H0 H1 Hk.
  destruct (genV1_time_fields now st r k H0 H1 Hk) as (E0 & E1 & h & E2 & Eh).
  assert (B : 0 <= intervals now < 2 ^ 57).
  { unfold intervals. change (2 ^ 57) with (2 ^ 53 * 16). lia. }
  split; [|exact B].
  unfold timestamp60. rewrite E0, E1, E2.
  change 0xFFF with (Z.ones 12). rewrite band_low by lia. rewrite Eh.
  cbn [nmul nadd]. f_equal.
  rewrite <- (Z.mod_small (intervals now) (2 ^ 60)) at 4
    by (change (2 ^ 57) with 144115188075855872 in B;
        change (2 ^ 60) with 1152921504606846976; lia).
  rewrite <- (split60 (intervals now)). ring.
Qed.

End Timestamp60.



(** X14: a call of [genV1] whose clock reading differs from the stored
    timestamp resets the tick to 0, and when the node is a 48-bit value
    its UUID fits the widths and is parsed back from its rendering: the
    carry out of [timeLow] can only come within a repeated
    millisecond. *)
Theorem new_millisecond_roundtrip (now : Z) (st : UUIDState) (r : Source) (n : Z) :
  timestamp st <> Num now -> node st = Num n -> 0 <= n < 2 ^ 48 ->
  let u := fst (fst (genV1 now st r)) in
  tick (snd (fst (genV1 now st r))) = Num 0
  /\ width_invariant u /\ parses_back u.
Proof.
  intros Hne Hn Bn u.
  assert (E : strict_eq (Num now) (timestamp st) = false).
  { destruct (strict_eq (Num now) (timestamp st)) eqn:E; [|reflexivity].
    apply strict_eq_true in E. congruence. }
  assert (T : tick (snd (fst (genV1 now st r))) = Num 0).
  { rewrite genV1_result. cbn [snd tick]. unfold advance. rewrite E. reflexivity. }
  split; [exact T|].
  apply (genV1_roundtrip_without_carry now st r 0 n T Hn Bn).
  destruct (timefields_range (Num now)) as (Bl & _). lia.
Qed.

Lemma new_millisecond_roundtrip_witness :
  timestamp sample_state <> Num overflow_instant
  /\ parses_back (fst (fst (genV1 overflow_instant sample_state zero_source))).
Proof.
  assert (H : timestamp sample_state <> Num overflow_instant) by discriminate.
  split; [exact H|].
  apply (new_millisecond_roundtrip overflow_instant sample_state zero_source
           0x10000000001 H); [reflexivity|].
  split; [discriminate|reflexivity].
Defined.

(** ** The version of a parsed UUID *)

Section ParsedVersion.

Lemma four_digits d0 d1 d2 d3 :
  0 <= d0 < 16 -> 0 <= d1 < 16 -> 0 <= d2 < 16 -> 0 <= d3 < 16 ->
  (digits_value 16 [d0; d1; d2; d3] / 2 ^ 12) mod 2 ^ 4 = d0
  /\ 0 <= digits_value 16 [d0; d1; d2; d3] < 2 ^ 16.
Proof.
  intros H0 H1 H2 H3. cbn [digits_value List.length].
  change (16 ^ Z.of_nat 3) with 4096. change (16 ^ Z.of_nat 2) with 256.
  change (16 ^ Z.of_nat 1) with 16. change (16 ^ Z.of_nat 0) with 1.
  change (2 ^ 12) with 4096. change (2 ^ 4) with 16. change (2 ^ 16) with 65536.
  split; [|lia].
  replace (d0 * 4096 + (d1 * 256 + (d2 * 16 + (d3 * 1 + 0))))
    with (d1 * 256 + d2 * 16 + d3 + d0 * 4096) by ring.
  rewrite Z.div_add by lia. rewrite Z.div_small by lia.
  apply Z.mod_small. lia.
Qed.

Lemma digit_of_hex c :
  is_digit 16 c = true ->
  0 <= hex_digit_value c < 16
  /\ match digit_val c with Some d => d | None => 0 end = hex_digit_value c.
Proof.
  intros H. destruct (is_digit_val 16 c H) as (d & _ & Hd & Ev).
  pose proof (hex_digit_value_val c) as P. rewrite H in P. cbn [implb] in P.
  apply Z.eqb_eq in P. rewrite Ev in P. rewrite Ev, P. split; [exact Hd|reflexivity].
Qed.

End ParsedVersion.

(** X13: the version of a parsed UUID is the value of the character at
    index 14 of the text, the first digit of the third group; it is
    between 0 and 15 and nothing restricts it to the versions that the
    library generates. *)
Theorem parsed_version (s : jsstring) (u : UUID) :
  parse s = Some u ->
  version u = hex_digit_value (nth 14 s "0"%char) /\ 0 <= version u < 16.
Proof.
  intros H. destruct (parse_some s u H) as (g1 & g2 & g3 & g4 & g5 & g6 & M & ->).
  destruct M as (-> & (L1 & _) & (L2 & _) & (L3 & A3) & _).
  rewrite init_version, stored_nums. cbn [nth].
  rewrite (hex_value_digits g3 A3).
  do 8 (destruct g1 as [|? g1]; [discriminate L1|]).
  do 4 (destruct g2 as [|? g2]; [discriminate L2|]).
  destruct g1; [|discriminate L1]. destruct g2; [|discriminate L2].
  destruct g3 as [|c0 g3]; [discriminate L3|].
  destruct g3 as [|c1 g3]; [discriminate L3|].
  destruct g3 as [|c2 g3]; [discriminate L3|].
  destruct g3 as [|c3 g3]; [discriminate L3|].
  destruct g3; [|discriminate L3].
  change (nth 14 _ _) with c0.
  inversion A3 as [|? ? H0 A3']; subst.
  inversion A3' as [|? ? H1 A3'']; subst.
  inversion A3'' as [|? ? H2 A3''']; subst.
  inversion A3''' as [|? ? H3 _]; subst.
  destruct (digit_of_hex c0 H0) as (B0 & E0).
  destruct (digit_of_hex c1 H1) as (B1 & E1).
  destruct (digit_of_hex c2 H2) as (B2 & E2).
  destruct (digit_of_hex c3 H3) as (B3 & E3).
  cbn [vals map]. rewrite E0, E1, E2, E3.
  destruct (four_digits _ _ _ _ B0 B1 B2 B3) as (V & R).
  rewrite version_nibble by (change (2 ^ 16) with 65536 in R;
                             change (2 ^ 31) with 2147483648; lia).
  rewrite V. split; [reflexivity|exact B0].
Qed.

Lemma parsed_version_witness :
  parse sample_text = Some sample_uuid
  /\ version sample_uuid = hex_digit_value (nth 14 sample_text "0"%char).
Proof.
  assert (H : parse sample_text = Some sample_uuid) by (vm_compute; reflexivity).
  split; [exact H|]. exact (proj1 (parsed_version sample_text sample_uuid H)).
Defined.

(** ** The UUIDs of one millisecond *)

Section SameMillisecond.

Variable now : Z.

(** What a UUID shows of the state that its call leaves. *)
Lemma genV1_shows st r k :
  tick (snd (fst (genV1 now st r))) = Num k ->
  exists m,
    sequence (snd (fst (genV1 now st r))) = Num m /\ 0 <= m < 2 ^ 14
    /\ timestamp (snd (fst (genV1 now st r))) = Num now
    /\ shows now (fst (fst (genV1 now st r))) k m.
Proof.
  intros Hk. pose proof (genV1_intFields now st r) as I. cbv zeta in I.
  unfold shows, field. rewrite I. clear I.
  rewrite genV1_result in *. cbn [snd fst tick sequence timestamp] in *.
  exists (band (sequence (fst (advance now st r))) (Num 0x3FFF)).
  split; [reflexivity|]. split; [apply seq14_range|]. split; [reflexivity|].
  cbn [nth]. rewrite Hk. cbn [nadd]. now rewrite or_zero_num.
Qed.

(** A call within the stored millisecond advances the tick or the
    sequence, one of the two and by one. *)
Lemma advance_same st r m k :
  timestamp st = Num now -> sequence st = Num m -> tick st = Num k ->
  (sequence (fst (advance now st r)) = Num (m + 1)
   /\ tick (fst (advance now st r)) = Num k)
  \/ (sequence (fst (advance now st r)) = Num m
      /\ tick (fst (advance now st r)) = Num (k + 1)).
Proof.
  intros Et Em Ek. unfold advance. rewrite Et. cbn [strict_eq].
  rewrite Z.eqb_refl. cbn [negb].
  unfold bind, Math_random, ret. cbv zeta. cbn [fst snd].
  destruct (Qlt_le_dec (r 0%nat) _tsRatio); cbn [andb].
  - rewrite Ek. cbn [nlt]. destruct (k <? 9999).
    + right. cbn [fst incr_tick sequence tick]. rewrite Ek. now split.
    + left. cbn [fst incr_sequence sequence tick]. rewrite Em. now split.
  - left. cbn [fst incr_sequence sequence tick]. rewrite Em. now split.
Qed.

Lemma same_ms_step st r m k :
  timestamp st = Num now -> sequence st = Num m -> tick st = Num k ->
  exists k' c,
    tick (snd (fst (genV1 now st r))) = Num k'
    /\ sequence (snd (fst (genV1 now st r))) = Num ((m + c) mod 2 ^ 14)
    /\ timestamp (snd (fst (genV1 now st r))) = Num now
    /\ 0 <= k' - k /\ 0 <= c /\ k' - k + c = 1.
Proof.
  intros Et Em Ek. rewrite genV1_result. cbn [snd tick sequence timestamp].
  change 0x3FFF with (Z.ones 14).
  destruct (advance_same st r m k Et Em Ek) as [(-> & ->) | (-> & ->)].
  - exists k, 1. rewrite band_low by lia. repeat split; lia.
  - exists (k + 1), 0. rewrite band_low by lia. rewrite Z.add_0_r.
    repeat split; lia.
Qed.

Lemma run_cons n st r :
  fst (fst (generate (repeat now (S n)) st r))
  = fst (fst (genV1 now st r))
    :: fst (fst (generate (repeat now n) (snd (fst (genV1 now st r)))
                          (snd (genV1 now st r)))).
Proof. reflexivity. Qed.

(** Every UUID of a run within one millisecond shows a tick and a
    sequence that the calls have advanced, together, by at least one
    and at most the number of calls. *)
Lemma same_ms_run n : forall st r m k,
  timestamp st = Num now -> sequence st = Num m -> tick st = Num k ->
  Forall (fun u => exists k' c,
            shows now u k' ((m + c) mod 2 ^ 14)
            /\ 0 <= k' - k /\ 0 <= c /\ 0 < k' - k + c <= Z.of_nat n)
         (fst (fst (generate (repeat now n) st r))).
Proof.
  induction n as [|n IH]; intros st r m k Et Em Ek; [constructor|].
  rewrite run_cons.
  destruct (same_ms_step st r m k Et Em Ek) as (k1 & c1 & Ek1 & Em1 & Et1 & B1 & B2 & B3).
  constructor.
  - destruct (genV1_shows st r k1 Ek1) as (m1 & Em1' & _ & _ & S).
    rewrite Em1 in Em1'. apply Num_inj in Em1'. subst m1.
    exists k1, c1. split; [exact S|]. lia.
  - specialize (IH _ (snd (genV1 now st r)) _ _ Et1 Em1 Ek1).
    eapply Forall_impl; [|exact IH]. cbv beta.
    intros u (k' & c & S & C1 & C2 & C3).
    exists k', (c1 + c). rewrite Zplus_mod_idemp_l in S.
    rewrite Z.add_assoc. split; [exact S|]. lia.
Qed.

Lemma mod_shift m c :
  0 <= m < 2 ^ 14 -> 0 < c < 2 ^ 14 -> (m + c) mod 2 ^ 14 <> m.
Proof.
  intros Hm Hc. change (2 ^ 14) with 16384 in *.
  destruct (Z_lt_le_dec (m + c) 16384).
  - rewrite Z.mod_small by lia. lia.
  - replace (m + c) with (m + c - 16384 + 1 * 16384) by ring.
    rewrite Z.mod_add by lia. rewrite Z.mod_small by lia. lia.
Qed.

Lemma shows_same u k m k' m' :
  0 <= m < 2 ^ 14 -> 0 <= m' < 2 ^ 14 ->
  shows now u k m -> shows now u k' m' -> k = k' /\ m = m'.
Proof.
  intros Hm Hm' (A0 & A3 & A4) (B0 & B3 & B4).
  rewrite A0 in B0. rewrite A3 in B3. rewrite A4 in B4.
  apply Num_inj in B0, B3, B4. split; [lia|].
  now apply sequence_split.
Qed.

Lemma shows_fields u v k m :
  intFields u = intFields v -> shows now u k m -> shows now v k m.
Proof. unfold shows, field. now intros ->. Qed.

Lemma same_ms_nodup n : forall st r m k,
  Z.of_nat n <= 2 ^ 14 ->
  timestamp st = Num now -> sequence st = Num m -> tick st = Num k ->
  NoDup (map intFields (fst (fst (generate (repeat now n) st r)))).
Proof.
  induction n as [|n IH]; intros st r m k Hn Et Em Ek; [constructor|].
  rewrite run_cons. cbn [map].
  destruct (same_ms_step st r m k Et Em Ek) as (k1 & c1 & Ek1 & Em1 & Et1 & _).
  destruct (genV1_shows st r k1 Ek1) as (m1 & Em1' & Bm1 & _ & S1).
  rewrite Em1' in Em1.
  constructor.
  - intros Hin. apply in_map_iff in Hin. destruct Hin as (u & Eu & Hu).
    pose proof (same_ms_run n _ (snd (genV1 now st r)) _ _ Et1 Em1' Ek1) as R.
    rewrite Forall_forall in R. destruct (R u Hu) as (k' & c & S & C1 & C2 & C3).
    apply (shows_fields _ _ _ _ Eu) in S.
    assert (Bmod : 0 <= (m1 + c) mod 2 ^ 14 < 2 ^ 14)
      by (apply Z.mod_pos_bound; reflexivity).
    destruct (shows_same _ _ _ _ _ Bmod Bm1 S S1) as (Hk & Hm).
    apply (mod_shift m1 c Bm1); [lia|exact Hm].
  - apply (IH _ (snd (genV1 now st r)) _ _ ltac:(lia) Et1 Em1' Ek1).
Qed.

End SameMillisecond.

(** X16: the UUIDs that up to 2^14 successive calls of [genV1] return
    at one clock reading, from a well-formed state, are pairwise
    distinct. *)
Theorem same_millisecond_distinct
  (now : Z) (n : nat) (st : UUIDState) (r : Source) :
  well_formed st -> Z.of_nat n <= 2 ^ 14 ->
  NoDup (map intFields (fst (fst (generate (repeat now n) st r)))).
Proof.
  intros W Hn. destruct n as [|n]; [constructor|].
  rewrite run_cons. cbn [map].
  destruct (genV1_well_formed now st r W) as ((t & m & q & k & Et & Em & _ & Ek & Bm & _) & _ & T).
  destruct (genV1_shows now st r k Ek) as (m1 & Em1 & Bm1 & _ & S1).
  rewrite Em in Em1. apply Num_inj in Em1. subst m1.
  constructor.
  - intros Hin. apply in_map_iff in Hin. destruct Hin as (u & Eu & Hu).
    pose proof (same_ms_run now n _ (snd (genV1 now st r)) _ _ T Em Ek) as R.
    rewrite Forall_forall in R. destruct (R u Hu) as (k' & c & S & C1 & C2 & C3).
    apply (shows_fields _ _ _ _ _ Eu) in S.
    assert (Bmod : 0 <= (m + c) mod 2 ^ 14 < 2 ^ 14)
      by (apply Z.mod_pos_bound; reflexivity).
    destruct (shows_same _ _ _ _ _ _ Bmod Bm S S1) as (Hk & Hm).
    apply (mod_shift m c Bm); [lia|exact Hm].
  - apply (same_ms_nodup now n _ (snd (genV1 now st r)) m k ltac:(lia) T Em Ek).
Qed.

Lemma same_millisecond_distinct_witness :
  well_formed sample_state
  /\ NoDup (map intFields
              (fst (fst (generate (repeat overflow_instant 20) sample_state
                           zero_source)))).
Proof.
  assert (W : well_formed sample_state).
  { exists 0, 16383, 0x10000000001, 0. cbn [sample_state timestamp sequence node tick].
    repeat split; try reflexivity; discriminate. }
  split; [exact W|].
  apply (same_millisecond_distinct overflow_instant 20 sample_state zero_source W).
  discriminate.
Defined.

(** X17: when the clock goes forward between two successive calls of
    [genV1], both readings in the exact range, the timestamp held by
    the second UUID is greater than the one held by the first: the tick
    never reaches the 10000 intervals of a millisecond. *)
Theorem timestamps_increase (now1 now2 : Z) (st : UUIDState) (r1 r2 : Source) :
  well_formed st ->
  0 <= now1 - Date_UTC 1582 9 15 -> now1 < now2 ->
  (now2 - Date_UTC 1582 9 15) * 625 < 2 ^ 53 ->
  let first := fst (genV1 now1 st r1) in
  let second := fst (genV1 now2 (snd first) r2) in
  exists x1 x2,
    timestamp60 (fst first) = Num x1 /\ timestamp60 (fst second) = Num x2
    /\ x1 < x2.
Proof.
  intros W H0 Hlt H1 first second.
  destruct (genV1_well_formed now1 st r1 W)
    as ((t & m & q & k & Et & Em & _ & Ek & _ & _ & Bk) & _ & T).
  fold first in Et, Em, Ek, T.
  destruct (timestamp60_exact now1 st r1 k H0 ltac:(lia) Ek) as (E1 & _).
  fold first in E1.
  assert (Ek2 : tick (snd second) = Num 0).
  { unfold second. rewrite genV1_result. cbn [snd tick]. unfold advance.
    rewrite T. cbn [strict_eq]. destruct (Z.eqb_spec now2 now1); [lia|].
    reflexivity. }
  destruct (timestamp60_exact now2 (snd first) r2 0 ltac:(lia) H1 Ek2) as (E2 & _).
  fold second in E2.
  exists (intervals now1 + k), (intervals now2 + 0).
  split; [exact E1|]. split; [exact E2|]. unfold intervals. lia.
Qed.

Lemma timestamps_increase_witness :
  exists x1 x2,
    timestamp60 (fst (fst (genV1 1278799850863 sample_state zero_source))) = Num x1
    /\ timestamp60
         (fst (fst (genV1 1278799850864
                      (snd (fst (genV1 1278799850863 sample_state zero_source)))
                      zero_source))) = Num x2
    /\ x1 < x2.
Proof.
  assert (W : well_formed sample_state).
  { exists 0, 16383, 0x10000000001, 0. cbn [sample_state timestamp sequence node tick].
    repeat split; try reflexivity; discriminate. }
  apply (timestamps_increase 1278799850863 1278799850864 sample_state
           zero_source zero_source W).
  - vm_compute. discriminate.
  - lia.
  - vm_compute. reflexivity.
Defined.

(** ** The arguments of the initializer *)

Section Arguments.

Lemma stored_ext xs ys :
  (forall i, (i < 6)%nat -> or_zero (nth_error xs i) = or_zero (nth_error ys i)) ->
  stored xs = stored ys.
Proof.
  intros H. unfold stored. apply map_ext_in. intros i Hi.
  apply H. apply in_seq in Hi. lia.
Qed.

Lemma or_zero_NaN a :
  or_zero (option_map (fun n => match n with NaN => Num 0 | Num z => Num z end) a)
  = or_zero a.
Proof. destruct a as [[z|]|]; reflexivity. Qed.

End Arguments.

(** X15: the initializer reads six arguments: further ones are ignored,
    missing ones count as 0, and so does NaN. *)
Theorem init_arguments (args extra : list number) :
  ((6 <= List.length args)%nat -> _init (args ++ extra) = _init args)
  /\ _init (args ++ repeat (Num 0) (6 - List.length args)) = _init args
  /\ _init (map (fun n => match n with NaN => Num 0 | Num z => Num z end) args)
     = _init args.
Proof.
  split; [|split].
  - intros Hlen. apply init_eq_of_stored, stored_ext. intros i Hi.
    now rewrite nth_error_app1 by lia.
  - apply init_eq_of_stored, stored_ext. intros i Hi.
    destruct (Nat.lt_ge_cases i (List.length args)) as [Hlt|Hge].
    + now rewrite nth_error_app1 by lia.
    + rewrite nth_error_app2 by lia.
      rewrite (proj2 (nth_error_None args i)) by lia.
      rewrite nth_error_repeat by lia. reflexivity.
  - apply init_eq_of_stored, stored_ext. intros i _.
    rewrite nth_error_map. apply or_zero_NaN.
Qed.

Lemma init_arguments_witness :
  (6 <= List.length [Num 1; Num 2; Num 3; Num 4; Num 5; Num 6])%nat
  /\ _init ([Num 1; Num 2; Num 3; Num 4; Num 5; Num 6] ++ [Num 7])
     = _init [Num 1; Num 2; Num 3; Num 4; Num 5; Num 6].
Proof.
  assert (H : (6 <= List.length [Num 1; Num 2; Num 3; Num 4; Num 5; Num 6])%nat)
    by (simpl; lia).
  split; [exact H|].
  exact (proj1 (init_arguments [Num 1; Num 2; Num 3; Num 4; Num 5; Num 6] [Num 7]) H).
Defined.

(** ** The version 4 generator covers the version 4 UUIDs *)

Section OntoV4.

Lemma fair_before q s :
  (0 <= q)%Q /\ (q < 1)%Q -> fair s -> fair (before q s).
Proof. intros Hq Hs [|i]; simpl; [exact Hq|apply Hs]. Qed.

(** [_getRandomInt x] on the draws for [n] returns [n] and leaves the
    rest of the source. *)
Lemma rand_then x n s :
  0 <= x <= 53 -> 0 <= n < 2 ^ x -> fair s ->
  fair (draws_then x n s) /\ _getRandomInt x (draws_then x n s) = (Num n, s).
Proof.
  intros Hx Hn Hs. unfold draws_then.
  destruct (Z.leb_spec x 30) as [Hlo|Hhi].
  - pose proof (pow2_pos_id x ltac:(lia)) as Hp.
    set (p := Z.to_pos (2 ^ x)) in *.
    assert (Hf : fair (before (n # p) s)).
    { apply fair_before; [apply ratio_unit; lia|exact Hs]. }
    split; [exact Hf|].
    destruct (getRandomInt_low x _ Hf ltac:(lia)) as [-> _].
    cbn [before]. now rewrite (Qfloor_ratio_eq n p _ Hp).
  - pose proof (pow2_pos_id 30 ltac:(lia)) as Hp.
    pose proof (pow2_pos_id (x - 30) ltac:(lia)) as Hq.
    set (p := Z.to_pos (2 ^ 30)) in *. set (q := Z.to_pos (2 ^ (x - 30))) in *.
    assert (H30 : 0 < 2 ^ 30) by reflexivity.
    assert (Hhigh : 0 <= n / 2 ^ 30 < 2 ^ (x - 30)).
    { split; [apply Z.div_pos; lia|]. apply Z.div_lt_upper_bound; [lia|].
      rewrite <- Z.pow_add_r by lia. replace (30 + (x - 30)) with x by lia. lia. }
    assert (Hf : fair (before ((n mod 2 ^ 30) # p) (before ((n / 2 ^ 30) # q) s))).
    { apply fair_before; [|apply fair_before]; try exact Hs; apply ratio_unit.
      - rewrite Hp. apply Z.mod_pos_bound. exact H30.
      - rewrite Hq. exact Hhigh. }
    split; [exact Hf|].
    destruct (getRandomInt_high x _ Hf ltac:(lia)) as [-> _].
    cbn [before].
    rewrite (Qfloor_ratio_eq _ p _ Hp), (Qfloor_ratio_eq _ q _ Hq).
    pose proof (Z.div_mod n (2 ^ 30) ltac:(lia)) as Hdm.
    replace (n mod 2 ^ 30 + n / 2 ^ 30 * 2 ^ 30) with n by lia.
    reflexivity.
Qed.

End OntoV4.

(** X18: every UUID whose fields fit their widths, whose version is 4
    and whose variant bits are 10 is returned by [genV4] for some fair
    draws: the generator covers all 2^122 version 4 UUIDs. *)
Theorem genV4_onto (a b c d e f : Z) :
  0 <= a < 2 ^ 32 -> 0 <= b < 2 ^ 16 -> 0 <= c < 2 ^ 12 ->
  0 <= d < 2 ^ 6 -> 0 <= e < 2 ^ 8 -> 0 <= f < 2 ^ 48 ->
  fair (draws_v4 a b c d e f)
  /\ fst (genV4 (draws_v4 a b c d e f))
     = _init [Num a; Num b; Num (0x4000 + c); Num (0x80 + d); Num e; Num f].
Proof.
  intros Ha Hb Hc Hd He Hf. unfold draws_v4.
  destruct (rand_then 48 f zero_source ltac:(lia) Hf fair_zero) as (F6 & E6).
  set (s6 := draws_then 48 f zero_source) in *.
  destruct (rand_then 8 e s6 ltac:(lia) He F6) as (F5 & E5).
  set (s5 := draws_then 8 e s6) in *.
  destruct (rand_then 6 d s5 ltac:(lia) Hd F5) as (F4 & E4).
  set (s4 := draws_then 6 d s5) in *.
  destruct (rand_then 12 c s4 ltac:(lia) Hc F4) as (F3 & E3).
  set (s3 := draws_then 12 c s4) in *.
  destruct (rand_then 16 b s3 ltac:(lia) Hb F3) as (F2 & E2).
  set (s2 := draws_then 16 b s3) in *.
  destruct (rand_then 32 a s2 ltac:(lia) Ha F2) as (F1 & E1).
  split; [exact F1|].
  unfold genV4, bind, ret. cbv zeta.
  rewrite E1. cbn [fst snd]. rewrite E2. cbn [fst snd].
  rewrite E3. cbn [fst snd]. rewrite E4. cbn [fst snd].
  rewrite E5. cbn [fst snd]. rewrite E6. cbn [fst snd].
  change 0x4000 with (2 ^ 14). change 0x80 with (2 ^ 7).
  assert (2 ^ 6 < 2 ^ 7) by reflexivity.
  assert (2 ^ 12 < 2 ^ 14) by reflexivity.
  rewrite (bor_flag_l c 14), (bor_flag_l d 7) by lia.
  reflexivity.
Qed.

Lemma genV4_onto_witness :
  fair (draws_v4 0x12345678 0x1234 0x678 0x1a 0xbc 0x123456789012)
  /\ fst (genV4 (draws_v4 0x12345678 0x1234 0x678 0x1a 0xbc 0x123456789012))
     = _init [Num 0x12345678; Num 0x1234; Num (0x4000 + 0x678); Num (0x80 + 0x1a);
              Num 0xbc; Num 0x123456789012].
Proof.
  apply (genV4_onto 0x12345678 0x1234 0x678 0x1a 0xbc 0x123456789012);
    (split; [discriminate|reflexivity]).
Defined.

(** X19: when the clock goes forward between two successive calls of
    [genV1] the second UUID keeps the clock sequence of the first, and
    its tick is 0: the sequence changes only when the clock stands
    still or goes back. *)
Theorem sequence_kept_forward (now1 now2 : Z) (st : UUIDState) (r1 r2 : Source) :
  now1 < now2 ->
  let first := fst (genV1 now1 st r1) in
  let second := fst (genV1 now2 (snd first) r2) in
  clock_sequence (fst second) = clock_sequence (fst first)
  /\ sequence (snd second) = sequence (snd first)
  /\ tick (snd second) = Num 0.
Proof.
  intros Hlt first second.
  pose proof (genV1_result now1 st r1) as E1. cbv zeta in E1. fold first in E1.
  set (m1 := band (sequence (fst (advance now1 st r1))) (Num 0x3FFF)) in E1.
  pose proof (seq14_range (sequence (fst (advance now1 st r1)))) as Hm1.
  fold m1 in Hm1.
  assert (Et : timestamp (snd first) = Num now1) by now rewrite E1.
  assert (Es : sequence (snd first) = Num m1) by now rewrite E1.
  assert (A : advance now2 (snd first) r2
              = ({| timestamp := Num now2; sequence := Num m1;
                    node := node (snd first); tick := Num 0 |}, r2)).
  { unfold advance. rewrite Et. cbn [strict_eq nlt].
    destruct (Z.eqb_spec now2 now1); [lia|]. cbn [negb].
    destruct (Z.ltb_spec now2 now1); [lia|]. now rewrite Es. }
  pose proof (genV1_result now2 (snd first) r2) as E2. cbv zeta in E2.
  fold second in E2. rewrite A in E2. cbn [fst sequence tick] in E2.
  change 0x3FFF with (Z.ones 14) in E2. rewrite band_low in E2 by lia.
  rewrite (Z.mod_small m1) in E2 by exact Hm1.
  assert (C1 : clock_sequence (fst first) = m1).
  { rewrite E1. cbn [fst]. now apply clock_sequence_init. }
  assert (C2 : clock_sequence (fst second) = m1).
  { rewrite E2. cbn [fst]. now apply clock_sequence_init. }
  rewrite C1, C2, Es, E2. repeat split.
Qed.

Lemma sequence_kept_forward_witness :
  1278799850863 < 1278799850864
  /\ clock_sequence
       (fst (fst (genV1 1278799850864
                    (snd (fst (genV1 1278799850863 sample_state zero_source)))
                    zero_source)))
     = clock_sequence (fst (fst (genV1 1278799850863 sample_state zero_source))).
Proof.
  assert (H : 1278799850863 < 1278799850864) by lia.
  split; [exact H|].
  exact (proj1 (sequence_kept_forward 1278799850863 1278799850864 sample_state
                  zero_source zero_source H)).
Defined.

(** The sample UUID fits its widths, so it is parsed back. *)
Lemma roundtrip_iff_width_witness :
  width_invariant sample_uuid /\ parses_back sample_uuid.
Proof.
  assert (W : width_invariant sample_uuid).
  { apply width_invariant_init. repeat split; discriminate || reflexivity. }
  split; [exact W|].
  exact (proj2 (roundtrip_iff_width
                  [Num 0x12345678; Num 0x1234; Num 0x5678; Num 0x9a; Num 0xbc;
                   Num 0x123456789012]) W).
Defined.

